(** * Process_Scheduler: a shallow embedding of [main.cpp]

    The program simulates seven CPU scheduling policies in discrete time.
    This development embeds the policy functions, the slot-fill primitive
    [update_cpus_state] and the simulation loop of [main], and proves
    properties of them.

    Conventions of the embedding.
    - [int] values (process ids, priorities, CPU slots) are [Z]; the code only
      compares them, so no wrap-around can occur on them.
    - [unsigned int] values (execution time, remaining time, simulated time,
      time slice) are [Z] in [0, 2^32); every arithmetic operation of the
      source on them is followed by [wrap32].
    - [std::vector] is [list]; the by-reference parameters of the policies
      become returned values.
    - [std::stable_sort] is a stable insertion sort; section [StableSortTheory]
      shows that for a strict weak order the stably sorted list is unique, so
      the choice of algorithm is immaterial.
    - Undefined behaviour and exceptions of the source are explicit faults of
      the [result] monad.
    - Standard input is modelled after tokenisation, one [line] per call of
      [std::getline]. *)

From Stdlib Require Import ZArith List Bool Lia Permutation Sorted.
Import ListNotations.
Open Scope Z_scope.

(* ================================================================= *)
(** * Definitions *)

(** ** Machine arithmetic *)

Definition wrap32 (z : Z) : Z := z mod 2 ^ 32.

(** ** Faults *)

Inductive fault : Type :=
| InvalidMethod   (* throw std::invalid_argument("invalid schedule method") *)
| OutOfRange      (* an iterator moved or dereferenced past the end *)
| DivisionByZero. (* [% rr_time] with [rr_time == 0] *)

Inductive result (A : Type) : Type :=
| Ok (a : A)
| Err (f : fault).

Arguments Ok {A} a.
Arguments Err {A} f.

Definition bind {A B : Type} (r : result A) (k : A -> result B) : result B :=
  match r with
  | Ok a => k a
  | Err f => Err f
  end.

Notation "x <- r ;; k" := (bind r (fun x => k))
  (at level 61, r at next level, right associativity).

Notation "' pat <- r ;; k" := (bind r (fun pat => k))
  (at level 61, pat pattern, r at next level, right associativity).

(** ** [struct proc_data] *)

Record proc_data : Type := mk_proc {
  id : Z;
  priority : Z;
  exec_time : Z;
  remaining_time : Z
}.

Definition compare_exec_time (pd1 pd2 : proc_data) : bool :=
  exec_time pd1 <? exec_time pd2.

Definition compare_priority (pd1 pd2 : proc_data) : bool :=
  priority pd1 <? priority pd2.

Definition compare_remaining_time (pd1 pd2 : proc_data) : bool :=
  remaining_time pd1 <? remaining_time pd2.

(** [operator >>]: three tokens are read, the remaining time starts at the
    execution time. *)
Definition read_proc (tok : Z * Z * Z) : proc_data :=
  let '(i, p, e) := tok in mk_proc i p e e.

Definition set_remaining (p : proc_data) (r : Z) : proc_data :=
  mk_proc (id p) (priority p) (exec_time p) r.

(** ** [std::stable_sort] *)

Section StableSort.
Context {A : Type}.
Variable comp : A -> A -> bool.

(** [x] stood before every element of [l]: it goes in front of the first
    element that is not strictly smaller. *)
Fixpoint insert (x : A) (l : list A) : list A :=
  match l with
  | [] => [x]
  | y :: l' => if comp y x then y :: insert x l' else x :: y :: l'
  end.

Fixpoint stable_sort (l : list A) : list A :=
  match l with
  | [] => []
  | x :: l' => insert x (stable_sort l')
  end.

(** [std::stable_sort(first + k, last, comp)]. *)
Definition sort_from (k : nat) (l : list A) : list A :=
  firstn k l ++ stable_sort (skipn k l).

(** [x] may stand before [y]. *)
Definition precedes (x y : A) : Prop := comp y x = false.

(** Neither is smaller than the other: the sort key is the same. *)
Definition tie (x y : A) : bool := negb (comp x y) && negb (comp y x).
End StableSort.

(** ** [update_cpus_state] *)

(** The range-for over [cpus_state] with the iterator [it_proc]. *)
Fixpoint fill_slots (proc_list : list proc_data) (cpus_state : list Z) : list Z :=
  match cpus_state with
  | [] => []
  | _ :: cpus =>
      match proc_list with
      | [] => -1 :: fill_slots [] cpus
      | p :: procs => id p :: fill_slots procs cpus
      end
  end.

(** The lambda [(i >= 0 && j >= 0) ? i < j : i > j]. *)
Definition cpu_order (i j : Z) : bool :=
  if (0 <=? i) && (0 <=? j) then i <? j else j <? i.

Definition update_cpus_state (proc_list : list proc_data) (cpus_state : list Z)
  : list Z :=
  stable_sort cpu_order (fill_slots proc_list cpus_state).

(** ** The policies

    A policy receives the ready list and the slot vector and returns both. *)

Definition assignment : Type := (list proc_data * list Z)%type.

Definition fcfs (proc_list : list proc_data) (cpus_state : list Z)
  : result assignment :=
  Ok (proc_list, update_cpus_state proc_list cpus_state).

(** The inner loop [for (auto proc : proc_list) if (cpu_state == proc.id) proc_it++]
    advances the iterator once per match. *)
Fixpoint count_id (c : Z) (l : list proc_data) : nat :=
  match l with
  | [] => O
  | p :: l' => if c =? id p then S (count_id c l') else count_id c l'
  end.

(** The outer loop of [sjf] and [prio_fcfs_no_preemption]; [k] is the offset
    of [proc_it].  Moving [proc_it] beyond [end()] is a fault. *)
Fixpoint skip_executing (l : list proc_data) (k : nat) (cpus : list Z)
  : result nat :=
  match cpus with
  | [] => Ok k
  | c :: cs =>
      if (k =? length l)%nat || (c =? -1) then Ok k
      else
        let k' := (k + count_id c l)%nat in
        if (k' <=? length l)%nat then skip_executing l k' cs
        else Err OutOfRange
  end.

Definition sjf (proc_list : list proc_data) (cpus_state : list Z)
  : result assignment :=
  k <- skip_executing proc_list 0 cpus_state ;;
  let l := sort_from compare_exec_time k proc_list in
  Ok (l, update_cpus_state l cpus_state).

Definition srtf (proc_list : list proc_data) (cpus_state : list Z)
  : result assignment :=
  let l := stable_sort compare_remaining_time proc_list in
  Ok (l, update_cpus_state l cpus_state).

(** The first process whose id is [c], with what stands before and after it. *)
Fixpoint split_at_id (c : Z) (l : list proc_data)
  : option (list proc_data * proc_data * list proc_data) :=
  match l with
  | [] => None
  | p :: l' =>
      if c =? id p then Some ([], p, l')
      else
        match split_at_id c l' with
        | Some (a, q, b) => Some (p :: a, q, b)
        | None => None
        end
  end.

(** One iteration of the loop of [rr] for a slot [c <> -1].  The search
    [while (cpu_state != proc_it->id && proc_it != proc_list.end())] reads
    [proc_it->id] before it compares [proc_it] with [end()]: when no process
    of the list has the id [c], the iterator reaches [end()] and the first
    conjunct reads the element past the end, which is undefined behaviour
    ([OutOfRange]).  The test [if (proc_it == proc_list.end()) continue;]
    that follows the search is therefore never reached with the iterator at
    [end()]. *)
Definition rr_slot (rr_time : Z) (l : list proc_data) (c : Z)
  : result (list proc_data) :=
  match split_at_id c l with
  | None => Err OutOfRange
  | Some (a, p, b) =>
      let proc_executed_time := wrap32 (exec_time p - remaining_time p) in
      if 0 <? proc_executed_time then
        if rr_time =? 0 then Err DivisionByZero
        else if proc_executed_time mod rr_time =? 0 then Ok (a ++ b ++ [p])
        else Ok l
      else Ok l
  end.

Fixpoint rr_loop (rr_time : Z) (l : list proc_data) (cpus : list Z)
  : result (list proc_data) :=
  match cpus with
  | [] => Ok l
  | c :: cs =>
      if c =? -1 then Ok l
      else l' <- rr_slot rr_time l c ;; rr_loop rr_time l' cs
  end.

Definition rr (proc_list : list proc_data) (cpus_state : list Z) (rr_time : Z)
  : result assignment :=
  l <- rr_loop rr_time proc_list cpus_state ;;
  Ok (l, update_cpus_state l cpus_state).

Definition prio_fcfs (proc_list : list proc_data) (cpus_state : list Z)
  : result assignment :=
  let l := stable_sort compare_priority proc_list in
  Ok (l, update_cpus_state l cpus_state).

Definition prio_srtf (proc_list : list proc_data) (cpus_state : list Z)
  : result assignment :=
  let l := stable_sort compare_priority
             (stable_sort compare_remaining_time proc_list) in
  Ok (l, update_cpus_state l cpus_state).

Definition prio_fcfs_no_preemption (proc_list : list proc_data)
  (cpus_state : list Z) : result assignment :=
  k <- skip_executing proc_list 0 cpus_state ;;
  let l := sort_from compare_priority k proc_list in
  Ok (l, update_cpus_state l cpus_state).

Definition all_cpus_sleeping (cpus_state : list Z) : bool :=
  negb (existsb (fun i => negb (i =? -1)) cpus_state).

(** ** [main] *)

(** The [switch (method)]. *)
Definition schedule (method rr_time : Z) (proc_list : list proc_data)
  (cpus_state : list Z) : result assignment :=
  match method with
  | 0 => fcfs proc_list cpus_state
  | 1 => sjf proc_list cpus_state
  | 2 => srtf proc_list cpus_state
  | 3 => rr proc_list cpus_state rr_time
  | 4 => prio_fcfs proc_list cpus_state
  | 5 => prio_srtf proc_list cpus_state
  | 6 => prio_fcfs_no_preemption proc_list cpus_state
  | _ => Err InvalidMethod
  end.

(** The body of [for (auto id : cpus_state)] in the "update proc_list" block:
    the search [while (it_proc->id != id) ++it_proc] has no bound. *)
Definition execute_slot (l : list proc_data) (c : Z) : result (list proc_data) :=
  if c =? -1 then Ok l
  else
    match split_at_id c l with
    | None => Err OutOfRange
    | Some (a, p, b) =>
        let r := wrap32 (remaining_time p - 1) in
        if r =? 0 then Ok (a ++ b) else Ok (a ++ set_remaining p r :: b)
    end.

Fixpoint execute (l : list proc_data) (cpus : list Z) : result (list proc_data) :=
  match cpus with
  | [] => Ok l
  | c :: cs => l' <- execute_slot l c ;; execute l' cs
  end.

(** A line of standard input as [std::getline] returns it: empty, or a
    timestamp, read by [ss >> time], followed by the process triples
    [(id, prio, exec_t)] that the loop [while (in_avail() / 2 >= 3) ss >> pd]
    extracts.  The character count that ends this loop is not modelled: a
    [Group] lists the triples that are read. *)
Inductive line : Type :=
| Blank
| Group (t : Z) (procs : list (Z * Z * Z)).

(** An output line: the time and the state of every CPU. *)
Definition record : Type := (Z * list Z)%type.

Record state : Type := mk_state {
  proc_list : list proc_data;
  cpus_state : list Z;
  time : Z;
  read : bool;
  stdin : list line;
  stdout : list record
}.

Definition initial (cpu_count : nat) (input : list line) : state :=
  mk_state [] (repeat 0 cpu_count) 0 true input [].

(** The block [if (read) ...]: an exhausted input reads as an empty line. *)
Definition read_input (st : state) : state :=
  if read st then
    match stdin st with
    | Group t procs :: rest =>
        mk_state (proc_list st ++ map read_proc procs) (cpus_state st) t true
          rest (stdout st)
    | Blank :: rest =>
        mk_state (proc_list st) (cpus_state st) (time st) false rest (stdout st)
    | [] =>
        mk_state (proc_list st) (cpus_state st) (time st) false [] (stdout st)
    end
  else st.

(** One iteration of the [while] loop. *)
Definition tick (method rr_time : Z) (st : state) : result state :=
  let st1 := read_input st in
  '(l, cpus) <- schedule method rr_time (proc_list st1) (cpus_state st1) ;;
  l' <- execute l cpus ;;
  Ok (mk_state l' cpus (wrap32 (time st1 + 1)) (read st1) (stdin st1)
        (stdout st1 ++ [(time st1, cpus)])).

Definition loop_cond (st : state) : bool :=
  read st || negb (all_cpus_sleeping (cpus_state st)).

(** How a run ends: [return 0], a fault, or the fuel of the model ran out. *)
Inductive outcome : Type :=
| Exit (st : state)
| Abort (f : fault) (out : list record)
| OutOfFuel.

Fixpoint main_loop (method rr_time : Z) (fuel : nat) (st : state) : outcome :=
  if loop_cond st then
    match fuel with
    | O => OutOfFuel
    | S fuel' =>
        match tick method rr_time st with
        | Ok st' => main_loop method rr_time fuel' st'
        | Err f => Abort f (stdout st)
        end
    end
  else Exit st.

Definition main (method : Z) (cpu_count : nat) (rr_time : Z) (fuel : nat)
  (input : list line) : outcome :=
  main_loop method rr_time fuel (initial cpu_count input).

(** The states the loop passes through at the head of the [while]. *)
Inductive reachable (method rr_time : Z) (cpu_count : nat) (input : list line)
  : state -> Prop :=
| reach_initial : reachable method rr_time cpu_count input (initial cpu_count input)
| reach_tick st st' :
    reachable method rr_time cpu_count input st ->
    loop_cond st = true ->
    tick method rr_time st = Ok st' ->
    reachable method rr_time cpu_count input st'.


(** ** Orders named by the specification *)

(** The lexicographic comparison by (priority, remaining time): priority
    decides, the remaining time breaks a tie of priorities.  The source has
    no such comparator; [prio_srtf] is compared with the sort it defines. *)
Definition compare_priority_then_remaining (pd1 pd2 : proc_data) : bool :=
  (priority pd1 <? priority pd2)
  || ((priority pd1 =? priority pd2)
      && (remaining_time pd1 <? remaining_time pd2)).

(** ** Shapes of a slot vector *)

(** The canonical slot vector the specification describes for a ready list
    [l] and [n] CPUs: the ids of the first [min n (length l)] processes in
    ascending order, followed by idle slots only. *)
Definition canonical_slots (l : list proc_data) (n : nat) (r : list Z) : Prop :=
  let k := Nat.min n (length l) in
  length r = n
  /\ Permutation (firstn k r) (map id (firstn k l))
  /\ StronglySorted Z.le (firstn k r)
  /\ skipn k r = repeat (-1) (n - k).

Definition nonneg_ids (l : list proc_data) : Prop :=
  Forall (fun p => 0 <= id p) l.

(** ** Vocabulary of the statements *)

Definition ids (l : list proc_data) : list Z := map id l.

(** The slots that hold something else than the idle value. *)
Definition occupied (c : list Z) : list Z :=
  filter (fun i => negb (i =? -1)) c.

(** The slots the loops of [rr], [sjf] and [prio_fcfs_no_preemption] look at:
    they [break] at the first idle slot. *)
Fixpoint active_slots (c : list Z) : list Z :=
  match c with
  | [] => []
  | x :: c' => if x =? -1 then [] else x :: active_slots c'
  end.

(** [exec_time - remaining_time], in [unsigned int]. *)
Definition executed_time (p : proc_data) : Z :=
  wrap32 (exec_time p - remaining_time p).


Definition in_slots (c : list Z) (p : proc_data) : bool :=
  existsb (Z.eqb (id p)) c.


(** ** Execution accounting, process by process *)

(** What one tick on a CPU leaves of a process: nothing when the decremented
    remaining time is zero. *)
Definition run_once (p : proc_data) : list proc_data :=
  let r := wrap32 (remaining_time p - 1) in
  if r =? 0 then [] else [set_remaining p r].

(** The ready list after the processes whose ids are in [s] ran for a tick. *)
Definition run_slots (s : list Z) (l : list proc_data) : list proc_data :=
  flat_map (fun p => if in_slots s p then run_once p else [p]) l.

(** The same state at another simulated time. *)
Definition set_time (st : state) (t : Z) : state :=
  mk_state (proc_list st) (cpus_state st) t (read st) (stdin st) (stdout st).

(** ** Vocabulary of the runs *)

(** The processes the program is going to read: those of the groups that
    stand before the first empty line. *)
Fixpoint arrivals (input : list line) : list proc_data :=
  match input with
  | Group _ procs :: rest => map read_proc procs ++ arrivals rest
  | _ => []
  end.

(** The processes still to be read. *)
Definition pending (st : state) : list proc_data :=
  if read st then arrivals (stdin st) else [].

(** The processes the run still has to deal with: the ready list, then the
    processes still to be read. *)
Definition known (st : state) : list proc_data := proc_list st ++ pending st.

(** The number of ticks a process still needs before [--remaining_time]
    yields zero: a remaining time of 0 wraps, it needs 2^32 ticks. *)
Definition load (p : proc_data) : Z :=
  if (0 <? remaining_time p) && (remaining_time p <? 2 ^ 32)
  then remaining_time p else 2 ^ 32.

Fixpoint total_load (l : list proc_data) : Z :=
  match l with
  | [] => 0
  | p :: l' => load p + total_load l'
  end.

Definition has_id (i : Z) (p : proc_data) : bool := id p =? i.

(** The ticks the processes of id [i] still need. *)
Definition load_of (i : Z) (l : list proc_data) : Z :=
  total_load (filter (has_id i) l).

(** The number of output records in which [i] holds a slot. *)
Definition appearances (i : Z) (out : list record) : nat :=
  length (filter (fun r => existsb (Z.eqb i) (snd r)) out).

Definition valid_method (method : Z) : Prop := 0 <= method <= 6.

(** A bound on the number of iterations the loop still makes. *)
Definition ticks_left (st : state) : Z :=
  (if read st then 2 * Z.of_nat (length (stdin st)) + 2 else 0)
  + total_load (known st)
  + (if all_cpus_sleeping (cpus_state st) then 0 else 1).

(** A process a well-formed input may contain: its id is not the idle value
    and its execution time is a positive [unsigned int]. *)
Definition well_formed_proc (p : proc_data) : Prop :=
  id p <> -1 /\ 0 < exec_time p < 2 ^ 32.

(** ** Invariants of the non-preemptive policies *)

(** The slot vector as slot fill leaves it for non-negative ids: the
    occupied slots, then the idle ones. *)
Definition idle_last (c : list Z) : Prop :=
  exists occ m, c = occ ++ repeat (-1) m /\ Forall (fun x => 0 <= x) occ.

(** The processes that hold a slot stand at the front of the ready list. *)
Definition running_in_front (st : state) : Prop :=
  exists run rest,
    proc_list st = run ++ rest
    /\ Forall (fun p => In (id p) (cpus_state st)) run
    /\ Forall (fun p => ~ In (id p) (cpus_state st)) rest.

(** [n] iterations in a row. *)
Fixpoint ticks (method rr_time : Z) (n : nat) (st : state) : result state :=
  match n with
  | O => Ok st
  | S n' => st' <- tick method rr_time st ;; ticks method rr_time n' st'
  end.

(** ** Vocabulary of the further properties *)

(** The order [cpu_order] puts on two slots, the first standing before the
    second: non-negative values ascending, then the negative ones
    descending. *)
Definition slot_order (a b : Z) : Prop :=
  (0 <= a /\ 0 <= b /\ a <= b)
  \/ (0 <= a /\ b < 0)
  \/ (a < 0 /\ b < 0 /\ b <= a).

(** Some process whose id is in a slot before the first idle one has run for
    a positive time. *)
Definition some_active_has_run (c : list Z) (l : list proc_data) : bool :=
  existsb (fun p => in_slots (active_slots c) p && (0 <? executed_time p)) l.

(** The process is one of the input: some arrival has its id, priority and
    execution time. *)
Definition from_input (input : list line) (p : proc_data) : Prop :=
  exists a, In a (arrivals input)
            /\ id a = id p /\ priority a = priority p
            /\ exec_time a = exec_time p.

(** The bookkeeping of a live process is sound. *)
Definition sound_proc (input : list line) (p : proc_data) : Prop :=
  0 < remaining_time p <= exec_time p /\ exec_time p < 2 ^ 32
  /\ from_input input p.

(** What a run shows to the outside: how it ended and what it printed. *)
Inductive report : Type :=
| Returned (out : list record)
| Faulted (f : fault) (out : list record)
| Unfinished.

Definition report_of (o : outcome) : report :=
  match o with
  | Exit st => Returned (stdout st)
  | Abort f out => Faulted f out
  | OutOfFuel => Unfinished
  end.

(** Two states that differ only in what follows the first empty line of the
    input still to be read: the first has [post] there, the second
    nothing. *)
Definition same_up_to_blank (post : list line) (st1 st2 : state) : Prop :=
  proc_list st1 = proc_list st2
  /\ cpus_state st1 = cpus_state st2
  /\ time st1 = time st2
  /\ read st1 = read st2
  /\ stdout st1 = stdout st2
  /\ (read st1 = true ->
      exists pre, stdin st1 = pre ++ Blank :: post /\ stdin st2 = pre).

(* ================================================================= *)
(** * Theory *)

(** ** The [result] monad *)

Lemma bind_Ok {A B : Type} (r : result A) (k : A -> result B) (b : B) :
  bind r k = Ok b -> exists a, r = Ok a /\ k a = Ok b.
Proof.
  destruct r as [a | f]; simpl; intros H.
  - now exists a.
  - discriminate.
Qed.

(** ** Stable sorting *)

Section StableSortTheory.
Context {A : Type}.
Variable comp : A -> A -> bool.

Lemma insert_perm (x : A) (l : list A) : Permutation (insert comp x l) (x :: l).
Proof.
  induction l as [| y l IH]; simpl.
  - reflexivity.
  - destruct (comp y x).
    + rewrite IH. apply perm_swap.
    + reflexivity.
Qed.

Lemma stable_sort_perm (l : list A) : Permutation (stable_sort comp l) l.
Proof.
  induction l as [| x l IH]; simpl.
  - reflexivity.
  - rewrite insert_perm. now constructor.
Qed.

Lemma stable_sort_length (l : list A) : length (stable_sort comp l) = length l.
Proof. apply Permutation_length, stable_sort_perm. Qed.

Lemma sort_from_perm (k : nat) (l : list A) : Permutation (sort_from comp k l) l.
Proof.
  unfold sort_from. rewrite stable_sort_perm. now rewrite firstn_skipn.
Qed.

Lemma sort_from_firstn (k j : nat) (l : list A) :
  (j <= k)%nat -> firstn j (sort_from comp k l) = firstn j l.
Proof.
  intros Hjk. unfold sort_from.
  destruct (Nat.le_gt_cases (length l) k) as [Hlen | Hlen].
  - rewrite skipn_all2 by exact Hlen. simpl. rewrite app_nil_r.
    replace (firstn k l) with l; [reflexivity |].
    symmetry. now apply firstn_all2.
  - rewrite firstn_app, length_firstn, Nat.min_l by lia.
    replace (j - k)%nat with O by lia. simpl. rewrite app_nil_r.
    rewrite firstn_firstn. f_equal. lia.
Qed.

(** The comparator is a strict weak order: asymmetric, and "not smaller"
    is transitive. *)
Hypothesis comp_asym : forall x y, comp x y = true -> comp y x = false.
Hypothesis comp_ntrans :
  forall x y z, comp x y = false -> comp y z = false -> comp x z = false.

Lemma precedes_trans (x y z : A) :
  precedes comp x y -> precedes comp y z -> precedes comp x z.
Proof. unfold precedes. intros Hxy Hyz. now apply comp_ntrans with y. Qed.

Lemma tie_false_of_comp (z x y : A) :
  comp y x = true -> tie comp z x = true -> tie comp z y = false.
Proof.
  unfold tie. intros Hyx Hzx.
  apply andb_true_iff in Hzx. destruct Hzx as [Hzx Hxz].
  apply negb_true_iff in Hzx, Hxz.
  destruct (comp z y) eqn:Hzy; simpl; [reflexivity |].
  destruct (comp y z) eqn:Hyz; simpl; [reflexivity |].
  rewrite (comp_ntrans y z x Hyz Hzx) in Hyx. discriminate.
Qed.

Lemma insert_sorted (x : A) (l : list A) :
  StronglySorted (precedes comp) l ->
  StronglySorted (precedes comp) (insert comp x l).
Proof.
  induction 1 as [| y l Hs IH Hy]; simpl.
  - repeat constructor.
  - destruct (comp y x) eqn:Hyx.
    + constructor; [exact IH |].
      rewrite insert_perm. constructor; [| exact Hy].
      now apply comp_asym.
    + constructor; [now constructor |].
      constructor; [exact Hyx |].
      eapply Forall_impl; [| exact Hy].
      intros z Hz. now apply precedes_trans with y.
Qed.

Lemma stable_sort_sorted (l : list A) :
  StronglySorted (precedes comp) (stable_sort comp l).
Proof.
  induction l as [| x l IH]; simpl.
  - constructor.
  - now apply insert_sorted.
Qed.

(** Stability: the elements of one key keep their order. *)
Lemma insert_stable (z x : A) (l : list A) :
  filter (tie comp z) (insert comp x l) = filter (tie comp z) (x :: l).
Proof.
  induction l as [| y l IH]; [reflexivity |].
  simpl insert. destruct (comp y x) eqn:Hyx; [| reflexivity].
  simpl filter in *. rewrite IH.
  destruct (tie comp z x) eqn:Hzx; [| reflexivity].
  now rewrite (tie_false_of_comp z x y Hyx Hzx).
Qed.

Lemma stable_sort_stable (z : A) (l : list A) :
  filter (tie comp z) (stable_sort comp l) = filter (tie comp z) l.
Proof.
  induction l as [| x l IH]; [reflexivity |].
  simpl stable_sort. rewrite insert_stable. simpl. now rewrite IH.
Qed.

Lemma tie_refl (x : A) : tie comp x x = true.
Proof.
  unfold tie. destruct (comp x x) eqn:H; [| reflexivity].
  now rewrite (comp_asym x x H) in H.
Qed.

(** Two sorted lists with the same elements of each key, in the same order,
    are equal: the stably sorted list is unique. *)
Lemma sorted_stable_unique (l1 l2 : list A) :
  StronglySorted (precedes comp) l1 ->
  StronglySorted (precedes comp) l2 ->
  (forall z, filter (tie comp z) l1 = filter (tie comp z) l2) ->
  l1 = l2.
Proof.
  intros H1. revert l2.
  induction H1 as [| a l1 Hs1 IH Ha]; intros l2 H2 Hf.
  - destruct l2 as [| b l2]; [reflexivity |].
    specialize (Hf b). simpl in Hf. now rewrite tie_refl in Hf.
  - destruct l2 as [| b l2].
    + specialize (Hf a). simpl in Hf. now rewrite tie_refl in Hf.
    + apply StronglySorted_inv in H2. destruct H2 as [Hs2 Hb].
      assert (Hab : tie comp a b = true).
      { unfold tie. apply andb_true_iff. split; apply negb_true_iff.
        - assert (Hin : In a (b :: l2)).
          { assert (Hin : In a (filter (tie comp a) (b :: l2))).
            { rewrite <- Hf. simpl. rewrite tie_refl. now left. }
            apply filter_In in Hin. tauto. }
          destruct Hin as [-> | Hin].
          + destruct (comp a a) eqn:H; [| reflexivity].
            now rewrite (comp_asym a a H) in H.
          + rewrite Forall_forall in Hb. exact (Hb a Hin).
        - assert (Hin : In b (a :: l1)).
          { assert (Hin : In b (filter (tie comp b) (a :: l1))).
            { rewrite Hf. simpl. rewrite tie_refl. now left. }
            apply filter_In in Hin. tauto. }
          destruct Hin as [-> | Hin].
          + destruct (comp b b) eqn:H; [| reflexivity].
            now rewrite (comp_asym b b H) in H.
          + rewrite Forall_forall in Ha. exact (Ha b Hin). }
      assert (Heq : a = b).
      { specialize (Hf a). simpl in Hf. rewrite tie_refl, Hab in Hf.
        now injection Hf. }
      subst b. f_equal. apply IH; [exact Hs2 |].
      intros z. specialize (Hf z). simpl in Hf.
      destruct (tie comp z a); [now injection Hf | exact Hf].
Qed.

(** Any list that is sorted and keeps ties in their original order is the
    result of [stable_sort]. *)
Lemma stable_sort_unique (l l' : list A) :
  StronglySorted (precedes comp) l' ->
  (forall z, filter (tie comp z) l' = filter (tie comp z) l) ->
  l' = stable_sort comp l.
Proof.
  intros Hs Hf. apply sorted_stable_unique.
  - exact Hs.
  - apply stable_sort_sorted.
  - intros z. now rewrite stable_sort_stable.
Qed.
End StableSortTheory.

(** ** The comparators are strict weak orders *)

Ltac comparator :=
  unfold compare_exec_time, compare_priority, compare_remaining_time,
    compare_priority_then_remaining, cpu_order, tie in *;
  repeat match goal with
         | H : context [Z.ltb ?a ?b] |- _ => destruct (Z.ltb_spec a b)
         | H : context [Z.leb ?a ?b] |- _ => destruct (Z.leb_spec a b)
         | H : context [Z.eqb ?a ?b] |- _ => destruct (Z.eqb_spec a b)
         | |- context [Z.ltb ?a ?b] => destruct (Z.ltb_spec a b)
         | |- context [Z.leb ?a ?b] => destruct (Z.leb_spec a b)
         | |- context [Z.eqb ?a ?b] => destruct (Z.eqb_spec a b)
         end;
  simpl in *; try reflexivity; try discriminate; try lia.

Lemma compare_exec_time_asym x y :
  compare_exec_time x y = true -> compare_exec_time y x = false.
Proof. intros H. comparator. Qed.

Lemma compare_exec_time_ntrans x y z :
  compare_exec_time x y = false -> compare_exec_time y z = false ->
  compare_exec_time x z = false.
Proof. intros H1 H2. comparator. Qed.

Lemma compare_priority_asym x y :
  compare_priority x y = true -> compare_priority y x = false.
Proof. intros H. comparator. Qed.

Lemma compare_priority_ntrans x y z :
  compare_priority x y = false -> compare_priority y z = false ->
  compare_priority x z = false.
Proof. intros H1 H2. comparator. Qed.

Lemma compare_remaining_time_asym x y :
  compare_remaining_time x y = true -> compare_remaining_time y x = false.
Proof. intros H. comparator. Qed.

Lemma compare_remaining_time_ntrans x y z :
  compare_remaining_time x y = false -> compare_remaining_time y z = false ->
  compare_remaining_time x z = false.
Proof. intros H1 H2. comparator. Qed.

Lemma compare_lex_asym x y :
  compare_priority_then_remaining x y = true ->
  compare_priority_then_remaining y x = false.
Proof. intros H. comparator. Qed.

Lemma compare_lex_ntrans x y z :
  compare_priority_then_remaining x y = false ->
  compare_priority_then_remaining y z = false ->
  compare_priority_then_remaining x z = false.
Proof. intros H1 H2. comparator. Qed.

Lemma cpu_order_asym i j : cpu_order i j = true -> cpu_order j i = false.
Proof. intros H. comparator. Qed.

Lemma cpu_order_ntrans i j k :
  cpu_order i j = false -> cpu_order j k = false -> cpu_order i k = false.
Proof. intros H1 H2. comparator. Qed.

(** ** Two stable sorts in a row *)

Lemma filter_andb {A : Type} (f g : A -> bool) (l : list A) :
  filter (fun x => f x && g x) l = filter f (filter g l).
Proof.
  induction l as [| x l IH]; [reflexivity |].
  simpl. destruct (g x); simpl.
  - rewrite andb_true_r. destruct (f x); now rewrite IH.
  - now rewrite andb_false_r.
Qed.

Lemma filter_comm {A : Type} (f g : A -> bool) (l : list A) :
  filter f (filter g l) = filter g (filter f l).
Proof.
  rewrite <- !filter_andb. apply filter_ext. intros x. apply andb_comm.
Qed.

Lemma StronglySorted_filter {A : Type} (R : A -> A -> Prop) (f : A -> bool)
  (l : list A) :
  StronglySorted R l -> StronglySorted R (filter f l).
Proof.
  induction 1 as [| a l Hs IH Ha]; simpl.
  - constructor.
  - destruct (f a); [| exact IH].
    constructor; [exact IH |].
    rewrite Forall_forall in *. intros x Hx.
    apply filter_In in Hx. now apply Ha.
Qed.

Lemma tie_lex (z y : proc_data) :
  tie compare_priority_then_remaining z y
  = tie compare_priority z y && tie compare_remaining_time z y.
Proof. comparator. Qed.

(** A list sorted by priority whose priority classes are each sorted by
    remaining time is sorted lexicographically. *)
Lemma lex_sorted_of_classes (s : list proc_data) :
  StronglySorted (precedes compare_priority) s ->
  (forall z, StronglySorted (precedes compare_remaining_time)
               (filter (tie compare_priority z) s)) ->
  StronglySorted (precedes compare_priority_then_remaining) s.
Proof.
  induction 1 as [| a s Hs IH Ha]; intros Hcls.
  - constructor.
  - constructor.
    + apply IH. intros z. specialize (Hcls z). simpl in Hcls.
      destruct (tie compare_priority z a); [| exact Hcls].
      now apply StronglySorted_inv in Hcls.
    + specialize (Hcls a). simpl in Hcls.
      rewrite (tie_refl _ compare_priority_asym) in Hcls.
      apply StronglySorted_inv in Hcls. destruct Hcls as [_ Hrem].
      rewrite Forall_forall in *. intros b Hb.
      specialize (Ha b Hb). unfold precedes in *.
      destruct (tie compare_priority a b) eqn:Htie.
      * assert (Hr : compare_remaining_time b a = false).
        { apply Hrem. apply filter_In. now split. }
        clear - Ha Hr Htie. comparator.
      * clear - Ha Htie. comparator.
Qed.

Lemma two_sorts_lexicographic (l : list proc_data) :
  stable_sort compare_priority (stable_sort compare_remaining_time l)
  = stable_sort compare_priority_then_remaining l.
Proof.
  apply (stable_sort_unique _ compare_lex_asym compare_lex_ntrans).
  - apply lex_sorted_of_classes.
    + apply (stable_sort_sorted _ compare_priority_asym compare_priority_ntrans).
    + intros z.
      rewrite (stable_sort_stable _ compare_priority_ntrans).
      apply StronglySorted_filter.
      apply (stable_sort_sorted _ compare_remaining_time_asym
               compare_remaining_time_ntrans).
  - intros z.
    assert (Hsplit : forall m : list proc_data,
               filter (tie compare_priority_then_remaining z) m
               = filter (tie compare_remaining_time z)
                   (filter (tie compare_priority z) m)).
    { intros m. rewrite (filter_ext _ _ (tie_lex z)), filter_andb.
      apply filter_comm. }
    rewrite !Hsplit.
    rewrite (stable_sort_stable _ compare_priority_ntrans).
    rewrite filter_comm.
    rewrite (stable_sort_stable _ compare_remaining_time_ntrans).
    apply filter_comm.
Qed.

(** C8: the reorder of [prio_srtf], a stable sort by remaining time followed
    by a stable sort by priority, is the stable sort by the lexicographic
    order on (priority, remaining time): the list is sorted for that order
    (priority decides, remaining time breaks priority ties) and processes
    that agree on both keys keep their original relative order.  This holds
    for whatever stable sorting algorithm performs the two sorts. *)
Theorem prio_srtf_is_lexicographic_stable_sort (l : list proc_data) (c : list Z) :
  let l' := stable_sort compare_priority_then_remaining l in
  prio_srtf l c = Ok (l', update_cpus_state l' c)
  /\ StronglySorted (precedes compare_priority_then_remaining) l'
  /\ Permutation l' l
  /\ (forall z, filter (tie compare_priority_then_remaining z) l'
                = filter (tie compare_priority_then_remaining z) l)
  /\ (forall m r,
        StronglySorted (precedes compare_remaining_time) m ->
        (forall z, filter (tie compare_remaining_time z) m
                   = filter (tie compare_remaining_time z) l) ->
        StronglySorted (precedes compare_priority) r ->
        (forall z, filter (tie compare_priority z) r
                   = filter (tie compare_priority z) m) ->
        r = l').
Proof.
  intros l'. subst l'. repeat split.
  - unfold prio_srtf. now rewrite two_sorts_lexicographic.
  - apply (stable_sort_sorted _ compare_lex_asym compare_lex_ntrans).
  - apply stable_sort_perm.
  - intros z. apply (stable_sort_stable _ compare_lex_ntrans).
  - intros m r Hm Hml Hr Hrm.
    rewrite <- two_sorts_lexicographic.
    rewrite <- (stable_sort_unique _ compare_remaining_time_asym
                  compare_remaining_time_ntrans l m Hm Hml).
    now apply (stable_sort_unique _ compare_priority_asym
                 compare_priority_ntrans).
Qed.

(** ** Lists *)

Lemma In_firstn_list {A : Type} (n : nat) (l : list A) (x : A) :
  In x (firstn n l) -> In x l.
Proof.
  intros H. rewrite <- (firstn_skipn n l). apply in_or_app. now left.
Qed.

Lemma In_skipn_list {A : Type} (n : nat) (l : list A) (x : A) :
  In x (skipn n l) -> In x l.
Proof.
  intros H. rewrite <- (firstn_skipn n l). apply in_or_app. now right.
Qed.

Lemma firstn_exact_app {A : Type} (k : nat) (a b : list A) :
  length a = k -> firstn k (a ++ b) = a.
Proof.
  intros <-. rewrite firstn_app, Nat.sub_diag, firstn_all. simpl.
  apply app_nil_r.
Qed.

Lemma skipn_exact_app {A : Type} (k : nat) (a b : list A) :
  length a = k -> skipn k (a ++ b) = b.
Proof.
  intros <-. rewrite skipn_app, Nat.sub_diag, skipn_all. reflexivity.
Qed.

(** ** Slot fill *)

Lemma fill_slots_nil (c : list Z) : fill_slots [] c = repeat (-1) (length c).
Proof. induction c as [| x c IH]; simpl; [reflexivity | now rewrite IH]. Qed.

Lemma fill_slots_eq (l : list proc_data) (c : list Z) :
  fill_slots l c
  = map id (firstn (length c) l) ++ repeat (-1) (length c - length l).
Proof.
  revert l. induction c as [| x c IH]; intros l; [reflexivity |].
  destruct l as [| p l]; simpl.
  - now rewrite fill_slots_nil.
  - now rewrite IH.
Qed.

Lemma fill_slots_length (l : list proc_data) (c : list Z) :
  length (fill_slots l c) = length c.
Proof.
  revert l. induction c as [| x c IH]; intros l; [reflexivity |].
  destruct l; simpl; now rewrite IH.
Qed.

Lemma fill_slots_same_length (l : list proc_data) (c c' : list Z) :
  length c' = length c -> fill_slots l c' = fill_slots l c.
Proof. intros H. now rewrite !fill_slots_eq, H. Qed.

Lemma update_cpus_state_length (l : list proc_data) (c : list Z) :
  length (update_cpus_state l c) = length c.
Proof.
  unfold update_cpus_state. now rewrite stable_sort_length, fill_slots_length.
Qed.

Lemma update_cpus_state_perm (l : list proc_data) (c : list Z) :
  Permutation (update_cpus_state l c) (fill_slots l c).
Proof. apply stable_sort_perm. Qed.

Lemma sort_idle (m : nat) :
  stable_sort cpu_order (repeat (-1) m) = repeat (-1) m.
Proof.
  induction m as [| m IH]; [reflexivity |].
  simpl. rewrite IH. destruct m; reflexivity.
Qed.

Lemma insert_before_idle (x : Z) (s : list Z) (m : nat) :
  0 <= x ->
  insert cpu_order x (s ++ repeat (-1) m)
  = insert cpu_order x s ++ repeat (-1) m.
Proof.
  intros Hx. induction s as [| y s IH]; simpl.
  - destruct m; simpl; [reflexivity |].
    replace (cpu_order (-1) x) with false by comparator. reflexivity.
  - destruct (cpu_order y x); [now rewrite IH | reflexivity].
Qed.

Lemma sort_occupied_idle (xs : list Z) (m : nat) :
  Forall (fun x => 0 <= x) xs ->
  stable_sort cpu_order (xs ++ repeat (-1) m)
  = stable_sort cpu_order xs ++ repeat (-1) m.
Proof.
  induction 1 as [| x xs Hx Hxs IH]; simpl.
  - apply sort_idle.
  - rewrite IH. now apply insert_before_idle.
Qed.

Lemma StronglySorted_weaken {A : Type} (R R' : A -> A -> Prop) (P : A -> Prop)
  (l : list A) :
  (forall a b, P a -> P b -> R a b -> R' a b) ->
  Forall P l -> StronglySorted R l -> StronglySorted R' l.
Proof.
  intros HR HP Hs. induction Hs as [| a l Hs IH Ha].
  - constructor.
  - apply Forall_cons_iff in HP. destruct HP as [Pa Pl].
    constructor; [now apply IH |].
    rewrite Forall_forall in *. intros b Hb. apply HR; auto.
Qed.

Lemma sorted_nonneg_ascending (xs : list Z) :
  Forall (fun x => 0 <= x) xs ->
  StronglySorted Z.le (stable_sort cpu_order xs).
Proof.
  intros Hxs.
  apply StronglySorted_weaken
    with (R := precedes cpu_order) (P := fun x => 0 <= x).
  - intros a b Ha Hb Hab. unfold precedes in Hab. comparator.
  - eapply Permutation_Forall; [| exact Hxs].
    symmetry. apply stable_sort_perm.
  - apply (stable_sort_sorted _ cpu_order_asym cpu_order_ntrans).
Qed.

Lemma nonneg_ids_map (l : list proc_data) :
  nonneg_ids l -> Forall (fun x => 0 <= x) (map id l).
Proof. unfold nonneg_ids. intros H. now rewrite Forall_map. Qed.

Lemma nonneg_ids_firstn (n : nat) (l : list proc_data) :
  nonneg_ids l -> nonneg_ids (firstn n l).
Proof.
  unfold nonneg_ids. rewrite !Forall_forall. intros H p Hp.
  apply H. eapply In_firstn_list. exact Hp.
Qed.

(** With non-negative ids the slot vector is the sorted ids of the processes
    that received a slot, then the idle slots. *)
Lemma update_cpus_state_nonneg (l : list proc_data) (c : list Z) :
  nonneg_ids l ->
  update_cpus_state l c
  = stable_sort cpu_order (map id (firstn (length c) l))
    ++ repeat (-1) (length c - length l).
Proof.
  intros Hl. unfold update_cpus_state. rewrite fill_slots_eq.
  apply sort_occupied_idle. now apply nonneg_ids_map, nonneg_ids_firstn.
Qed.

Lemma firstn_min_length {A : Type} (n : nat) (l : list A) :
  firstn (Nat.min n (length l)) l = firstn n l.
Proof.
  destruct (Nat.le_gt_cases n (length l)) as [H | H].
  - now rewrite Nat.min_l.
  - rewrite Nat.min_r by lia. rewrite firstn_all.
    symmetry. apply firstn_all2. lia.
Qed.

Lemma update_cpus_state_canonical (l : list proc_data) (c : list Z) :
  nonneg_ids l -> canonical_slots l (length c) (update_cpus_state l c).
Proof.
  intros Hl. unfold canonical_slots.
  set (k := Nat.min (length c) (length l)).
  assert (Hk : length (stable_sort cpu_order (map id (firstn (length c) l))) = k).
  { rewrite stable_sort_length, length_map, length_firstn. reflexivity. }
  split; [apply update_cpus_state_length |].
  rewrite update_cpus_state_nonneg by exact Hl.
  rewrite (firstn_exact_app k _ _ Hk), (skipn_exact_app k _ _ Hk).
  repeat split.
  - rewrite stable_sort_perm. subst k. now rewrite firstn_min_length.
  - apply sorted_nonneg_ascending. now apply nonneg_ids_map, nonneg_ids_firstn.
  - f_equal. lia.
Qed.

Lemma fill_slots_nth (l : list proc_data) (c : list Z) (k : nat) :
  nth_error (fill_slots l c) k
  = if (k <? length c)%nat
    then Some (match nth_error l k with Some p => id p | None => -1 end)
    else None.
Proof.
  revert l k. induction c as [| x c IH]; intros l k.
  - now destruct k.
  - destruct l as [| p l]; destruct k as [| k]; simpl; try reflexivity.
    + rewrite IH. now destruct k.
    + now rewrite IH.
Qed.

(** C1, as the code has it: for a ready list whose ids are non-negative and
    any slot vector of length N, slot fill writes the id of the k-th process
    into slot k for k < min(N, length) and the idle value -1 into every other
    slot, then sorts the slots stably with [cpu_order], which leaves the
    occupied slots first in ascending id order and the idle slots at the end;
    the result depends on the slot vector only through its length. *)
Theorem update_cpus_state_slot_fill (l : list proc_data) (c : list Z) :
  nonneg_ids l ->
  (forall k p, (k < length c)%nat -> nth_error l k = Some p ->
               nth_error (fill_slots l c) k = Some (id p))
  /\ (forall k, (k < length c)%nat -> nth_error l k = None ->
                nth_error (fill_slots l c) k = Some (-1))
  /\ update_cpus_state l c = stable_sort cpu_order (fill_slots l c)
  /\ canonical_slots l (length c) (update_cpus_state l c)
  /\ (forall c', length c' = length c ->
                 update_cpus_state l c' = update_cpus_state l c).
Proof.
  intros Hl. repeat split.
  - intros k p Hk Hp. rewrite fill_slots_nth, Hp.
    apply Nat.ltb_lt in Hk. now rewrite Hk.
  - intros k Hk Hp. rewrite fill_slots_nth, Hp.
    apply Nat.ltb_lt in Hk. now rewrite Hk.
  - apply update_cpus_state_length.
  - now apply update_cpus_state_canonical.
  - now apply update_cpus_state_canonical.
  - now apply update_cpus_state_canonical.
  - intros c' Hc'. unfold update_cpus_state.
    now rewrite (fill_slots_same_length l c c').
Qed.

Lemma update_cpus_state_slot_fill_witness :
  canonical_slots [mk_proc 7 0 2 2; mk_proc 3 1 4 4; mk_proc 5 0 1 1] 2
    (update_cpus_state [mk_proc 7 0 2 2; mk_proc 3 1 4 4; mk_proc 5 0 1 1] [0; 0]).
Proof.
  apply (update_cpus_state_slot_fill
           [mk_proc 7 0 2 2; mk_proc 3 1 4 4; mk_proc 5 0 1 1] [0; 0]).
  unfold nonneg_ids. repeat constructor; simpl; lia.
Defined.

(** C1 fails for a negative id: with the single process -5 and two CPUs the
    idle slot is placed before the occupied one. *)
Lemma update_cpus_state_negative_id_not_canonical :
  update_cpus_state [mk_proc (-5) 0 1 1] [0; 0] = [-1; -5]
  /\ ~ canonical_slots [mk_proc (-5) 0 1 1] 2
         (update_cpus_state [mk_proc (-5) 0 1 1] [0; 0]).
Proof.
  split; [reflexivity |].
  unfold canonical_slots. simpl. intros (_ & Hperm & _).
  apply Permutation_length_1 in Hperm. discriminate.
Qed.

(** ** Searching the ready list *)

Lemma split_at_id_Some (c : Z) (l a b : list proc_data) (p : proc_data) :
  split_at_id c l = Some (a, p, b) ->
  l = a ++ p :: b /\ id p = c /\ ~ In c (ids a).
Proof.
  revert a. induction l as [| q l IH]; intros a H; simpl in H; [discriminate |].
  destruct (Z.eqb_spec c (id q)) as [Hc | Hc].
  - injection H as <- <- <-. simpl. auto.
  - destruct (split_at_id c l) as [[[a' p'] b'] |]; [| discriminate].
    injection H as <- <- <-.
    destruct (IH a' eq_refl) as (-> & Hid & Hnot).
    repeat split; [exact Hid |].
    simpl. intros [Hq | Hin]; [now symmetry in Hq | now apply Hnot].
Qed.

Lemma split_at_id_None (c : Z) (l : list proc_data) :
  split_at_id c l = None <-> ~ In c (ids l).
Proof.
  induction l as [| q l IH]; simpl.
  - tauto.
  - destruct (Z.eqb_spec c (id q)) as [Hc | Hc].
    + split; [discriminate | intros H; exfalso; apply H; now left].
    + destruct (split_at_id c l) as [[[a' p'] b'] |].
      * split; [discriminate |]. intros H. exfalso.
        assert (Hin : ~ In c (ids l)) by tauto.
        apply IH in Hin. discriminate.
      * split; [| reflexivity]. intros _ [Hq | Hin]; [now symmetry in Hq |].
        now apply IH.
Qed.

Lemma split_at_id_In (c : Z) (l : list proc_data) :
  In c (ids l) -> exists a p b, split_at_id c l = Some (a, p, b).
Proof.
  intros Hin. destruct (split_at_id c l) as [[[a p] b] |] eqn:H.
  - now exists a, p, b.
  - apply split_at_id_None in H. contradiction.
Qed.

Lemma ids_app (a b : list proc_data) : ids (a ++ b) = ids a ++ ids b.
Proof. apply map_app. Qed.

Lemma In_ids (p : proc_data) (l : list proc_data) : In p l -> In (id p) (ids l).
Proof. apply in_map. Qed.

Lemma NoDup_ids_split (a b : list proc_data) (p q : proc_data) :
  NoDup (ids (a ++ p :: b)) -> In q (a ++ b) -> id q <> id p.
Proof.
  intros Hnd Hq Heq. rewrite ids_app in Hnd. simpl in Hnd.
  apply NoDup_remove_2 in Hnd. apply Hnd.
  rewrite <- ids_app, <- Heq. now apply In_ids.
Qed.

(** ** Round robin *)

Lemma filter_all {A : Type} (f : A -> bool) (l : list A) :
  (forall x, In x l -> f x = true) -> filter f l = l.
Proof.
  induction l as [| x l IH]; intros H; [reflexivity |].
  simpl. rewrite (H x) by now left.
  f_equal. apply IH. intros y Hy. apply H. now right.
Qed.

Lemma filter_none {A : Type} (f : A -> bool) (l : list A) :
  (forall x, In x l -> f x = false) -> filter f l = [].
Proof.
  induction l as [| x l IH]; intros H; [reflexivity |].
  simpl. rewrite (H x) by now left.
  apply IH. intros y Hy. apply H. now right.
Qed.

Lemma in_slots_true (c : list Z) (p : proc_data) :
  in_slots c p = true <-> In (id p) c.
Proof.
  unfold in_slots. rewrite existsb_exists. split.
  - intros (x & Hx & Heq). apply Z.eqb_eq in Heq. now subst.
  - intros H. exists (id p). split; [exact H | apply Z.eqb_refl].
Qed.

Lemma occupied_idle (m : nat) : occupied (repeat (-1) m) = [].
Proof. induction m as [| m IH]; [reflexivity | exact IH]. Qed.

Section RoundRobin.
Variable rr_time : Z.
Hypothesis rr_time_nonzero : rr_time <> 0.




End RoundRobin.


Lemma active_slots_idle_last (occ : list Z) (m : nat) :
  Forall (fun x => 0 <= x) occ ->
  active_slots (occ ++ repeat (-1) m) = occ.
Proof.
  induction 1 as [| x occ Hx _ IH]; simpl.
  - now destruct m.
  - destruct (Z.eqb_spec x (-1)) as [Hm | _]; [lia |]. now rewrite IH.
Qed.



Lemma rr_slot_perm (rr_time : Z) (l l' : list proc_data) (c : Z) :
  rr_slot rr_time l c = Ok l' -> Permutation l' l.
Proof.
  unfold rr_slot. destruct (split_at_id c l) as [[[a p] b] |] eqn:Hsplit.
  - apply split_at_id_Some in Hsplit. destruct Hsplit as (-> & _ & _).
    destruct (0 <? _); [| intros [= <-]; reflexivity].
    destruct (rr_time =? 0); [discriminate |].
    destruct (_ =? 0); intros [= <-]; [| reflexivity].
    apply Permutation_app_head. symmetry. apply Permutation_cons_append.
  - discriminate.
Qed.

Lemma rr_loop_perm (rr_time : Z) (c : list Z) (l l' : list proc_data) :
  rr_loop rr_time l c = Ok l' -> Permutation l' l.
Proof.
  revert l. induction c as [| x c IH]; intros l; simpl.
  - intros [= <-]. reflexivity.
  - destruct (x =? -1); [intros [= <-]; reflexivity |].
    intros H. apply bind_Ok in H. destruct H as (l1 & Hslot & Hloop).
    rewrite (IH _ Hloop). eapply rr_slot_perm. exact Hslot.
Qed.













(** ** Execution accounting *)

Lemma run_once_ids (p q : proc_data) : In q (run_once p) -> id q = id p.
Proof.
  unfold run_once. destruct (_ =? 0); simpl; [tauto |].
  intros [<- | []]. reflexivity.
Qed.

Lemma run_slots_app (s : list Z) (a b : list proc_data) :
  run_slots s (a ++ b) = run_slots s a ++ run_slots s b.
Proof. apply flat_map_app. Qed.

Lemma run_slots_cons (s : list Z) (p : proc_data) (l : list proc_data) :
  run_slots s (p :: l)
  = (if in_slots s p then run_once p else [p]) ++ run_slots s l.
Proof. reflexivity. Qed.

Lemma run_slots_absent (s : list Z) (l : list proc_data) :
  (forall p, In p l -> ~ In (id p) s) -> run_slots s l = l.
Proof.
  induction l as [| p l IH]; intros H; [reflexivity |].
  rewrite run_slots_cons, IH by (intros q Hq; apply H; now right).
  destruct (in_slots s p) eqn:Hin; [| reflexivity].
  apply in_slots_true in Hin. exfalso. apply (H p); [now left | exact Hin].
Qed.

Lemma run_slots_In_id (s : list Z) (l : list proc_data) (q : proc_data) :
  In q (run_slots s l) -> In (id q) (ids l).
Proof.
  induction l as [| p l IH]; [intros [] |].
  rewrite run_slots_cons. intros H. apply in_app_or in H.
  destruct H as [H | H]; [left | right; now apply IH].
  destruct (in_slots s p).
  - symmetry. now apply run_once_ids.
  - destruct H as [<- | []]. reflexivity.
Qed.

Lemma ids_run_slots_incl (s : list Z) (l : list proc_data) :
  incl (ids (run_slots s l)) (ids l).
Proof.
  intros x Hx. apply in_map_iff in Hx. destruct Hx as (q & <- & Hq).
  eapply run_slots_In_id. exact Hq.
Qed.

Lemma NoDup_ids_run_slots (s : list Z) (l : list proc_data) :
  NoDup (ids l) -> NoDup (ids (run_slots s l)).
Proof.
  induction l as [| p l IH]; intros Hnd; [constructor |].
  simpl in Hnd. apply NoDup_cons_iff in Hnd. destruct Hnd as [Hp Hnd].
  rewrite run_slots_cons, ids_app.
  assert (Hrest : ~ In (id p) (ids (run_slots s l))).
  { intros H. apply Hp. eapply ids_run_slots_incl. exact H. }
  destruct (in_slots s p).
  - unfold run_once. destruct (_ =? 0); simpl.
    + now apply IH.
    + constructor; [exact Hrest | now apply IH].
  - simpl. constructor; [exact Hrest | now apply IH].
Qed.

(** A process outside the slots is not touched. *)
Lemma run_slots_keeps (s : list Z) (l : list proc_data) (p : proc_data) :
  In p l -> ~ In (id p) s -> In p (run_slots s l).
Proof.
  induction l as [| q l IH]; [intros [] |].
  intros [-> | Hp] Hs; rewrite run_slots_cons; apply in_or_app.
  - left. destruct (in_slots s p) eqn:Hin; [| now left].
    apply in_slots_true in Hin. contradiction.
  - right. now apply IH.
Qed.

Lemma run_slots_keeps_id (s : list Z) (l : list proc_data) (x : Z) :
  In x (ids l) -> ~ In x s -> In x (ids (run_slots s l)).
Proof.
  intros Hx Hs. apply in_map_iff in Hx. destruct Hx as (p & <- & Hp).
  apply In_ids. now apply run_slots_keeps.
Qed.

Lemma run_slots_compose (c : Z) (s : list Z) (l : list proc_data) :
  ~ In c s -> run_slots s (run_slots [c] l) = run_slots (c :: s) l.
Proof.
  intros Hc. induction l as [| p l IH]; [reflexivity |].
  rewrite !run_slots_cons, run_slots_app, IH. f_equal.
  unfold in_slots. simpl. rewrite orb_false_r.
  destruct (Z.eqb_spec (id p) c) as [Hpc | Hpc]; simpl.
  - apply run_slots_absent. intros q Hq.
    rewrite (run_once_ids p q Hq), Hpc. exact Hc.
  - rewrite app_nil_r. reflexivity.
Qed.

Lemma execute_slot_spec (l : list proc_data) (c : Z) :
  c <> -1 -> NoDup (ids l) -> In c (ids l) ->
  execute_slot l c = Ok (run_slots [c] l).
Proof.
  intros Hc Hnd Hin. unfold execute_slot.
  destruct (Z.eqb_spec c (-1)) as [| _]; [contradiction |].
  destruct (split_at_id_In c l Hin) as (a & p & b & Hsplit).
  rewrite Hsplit. apply split_at_id_Some in Hsplit.
  destruct Hsplit as (-> & Hp & Ha).
  assert (Hab : forall q, In q (a ++ b) -> ~ In (id q) [c]).
  { intros q Hq [Heq | []]. apply (NoDup_ids_split a b p q Hnd Hq). congruence. }
  rewrite run_slots_app, run_slots_cons.
  rewrite (run_slots_absent [c] a)
    by (intros q Hq; apply Hab, in_or_app; now left).
  rewrite (run_slots_absent [c] b)
    by (intros q Hq; apply Hab, in_or_app; now right).
  replace (in_slots [c] p) with true
    by (symmetry; apply in_slots_true; now left).
  unfold run_once. now destruct (_ =? 0).
Qed.

Lemma occupied_cons (x : Z) (c : list Z) :
  occupied (x :: c) = if x =? -1 then occupied c else x :: occupied c.
Proof. unfold occupied. simpl. now destruct (x =? -1). Qed.

Lemma occupied_In (x : Z) (c : list Z) : In x (occupied c) <-> In x c /\ x <> -1.
Proof.
  unfold occupied. rewrite filter_In, negb_true_iff, Z.eqb_neq. reflexivity.
Qed.

(** With distinct ids and distinct occupied slots that all name a process of
    the ready list, the accounting loop finds every process it looks for. *)
Lemma execute_spec (c : list Z) (l : list proc_data) :
  NoDup (ids l) -> NoDup (occupied c) -> incl (occupied c) (ids l) ->
  execute l c = Ok (run_slots (occupied c) l).
Proof.
  revert l. induction c as [| x c IH]; intros l Hnd Hocc Hincl.
  - simpl. f_equal. symmetry. apply run_slots_absent. auto.
  - simpl execute. rewrite occupied_cons in *.
    destruct (Z.eqb_spec x (-1)) as [-> | Hx].
    + simpl. now apply IH.
    + apply NoDup_cons_iff in Hocc. destruct Hocc as [Hxc Hocc].
      rewrite (execute_slot_spec l x Hx Hnd) by (apply Hincl; now left).
      simpl bind. rewrite IH.
      * f_equal. now apply run_slots_compose.
      * now apply NoDup_ids_run_slots.
      * exact Hocc.
      * intros y Hy. apply run_slots_keeps_id.
        -- apply Hincl. now right.
        -- intros [<- | []]. contradiction.
Qed.

(** ** Who is in the slots after slot fill *)

Lemma Permutation_filter {A : Type} (f : A -> bool) (l l' : list A) :
  Permutation l l' -> Permutation (filter f l) (filter f l').
Proof.
  induction 1 as [| x l l' _ IH | x y l | l l' l'' _ IH1 _ IH2]; simpl.
  - constructor.
  - destruct (f x); [now constructor | exact IH].
  - destruct (f x), (f y); try reflexivity. apply perm_swap.
  - now transitivity (filter f l').
Qed.

Lemma occupied_update (l : list proc_data) (c : list Z) :
  Permutation (occupied (update_cpus_state l c))
    (occupied (ids (firstn (length c) l))).
Proof.
  unfold occupied at 1. rewrite (Permutation_filter _ _ _ (update_cpus_state_perm l c)).
  rewrite fill_slots_eq, filter_app.
  fold (occupied (repeat (-1) (length c - length l))).
  rewrite occupied_idle, app_nil_r. reflexivity.
Qed.

Lemma NoDup_ids_firstn (n : nat) (l : list proc_data) :
  NoDup (ids l) -> NoDup (ids (firstn n l)).
Proof.
  intros H. rewrite <- (firstn_skipn n l), ids_app in H.
  now apply NoDup_app_remove_r in H.
Qed.

Lemma NoDup_occupied_update (l : list proc_data) (c : list Z) :
  NoDup (ids l) -> NoDup (occupied (update_cpus_state l c)).
Proof.
  intros Hnd. eapply Permutation_NoDup.
  - symmetry. apply occupied_update.
  - apply NoDup_filter. now apply NoDup_ids_firstn.
Qed.

Lemma occupied_update_In (l : list proc_data) (c : list Z) (x : Z) :
  In x (occupied (update_cpus_state l c))
  <-> In x (ids (firstn (length c) l)) /\ x <> -1.
Proof.
  rewrite <- occupied_In. split; apply Permutation_in.
  - apply occupied_update.
  - symmetry. apply occupied_update.
Qed.

Lemma incl_occupied_update (l : list proc_data) (c : list Z) :
  incl (occupied (update_cpus_state l c)) (ids l).
Proof.
  intros x Hx. apply occupied_update_In in Hx. destruct Hx as [Hx _].
  unfold ids in *. rewrite <- firstn_map in Hx.
  eapply In_firstn_list. exact Hx.
Qed.

(** ** The policies return a permutation of the ready list *)

(** The [switch] of [main] has seven live branches. *)
Lemma schedule_cases (method rr_time : Z) (l : list proc_data) (c : list Z) :
  (method = 0 /\ schedule method rr_time l c = fcfs l c)
  \/ (method = 1 /\ schedule method rr_time l c = sjf l c)
  \/ (method = 2 /\ schedule method rr_time l c = srtf l c)
  \/ (method = 3 /\ schedule method rr_time l c = rr l c rr_time)
  \/ (method = 4 /\ schedule method rr_time l c = prio_fcfs l c)
  \/ (method = 5 /\ schedule method rr_time l c = prio_srtf l c)
  \/ (method = 6 /\ schedule method rr_time l c = prio_fcfs_no_preemption l c)
  \/ ((method < 0 \/ 6 < method)
      /\ schedule method rr_time l c = Err InvalidMethod).
Proof.
  destruct (Z.eq_dec method 0) as [-> | H0]; [tauto |].
  destruct (Z.eq_dec method 1) as [-> | H1]; [tauto |].
  destruct (Z.eq_dec method 2) as [-> | H2]; [tauto |].
  destruct (Z.eq_dec method 3) as [-> | H3]; [tauto |].
  destruct (Z.eq_dec method 4) as [-> | H4]; [tauto |].
  destruct (Z.eq_dec method 5) as [-> | H5]; [tauto |].
  destruct (Z.eq_dec method 6) as [-> | H6]; [tauto |].
  do 7 right. split; [lia |].
  unfold schedule.
  repeat match goal with
         | |- match ?m with _ => _ end = _ => destruct m; try reflexivity; try lia
         end.
Qed.

Lemma schedule_inv (method rr_time : Z) (l l' : list proc_data) (c c' : list Z) :
  schedule method rr_time l c = Ok (l', c') ->
  Permutation l' l /\ c' = update_cpus_state l' c.
Proof.
  destruct (schedule_cases method rr_time l c)
    as [[_ ->] | [[_ ->] | [[_ ->] | [[_ ->] | [[_ ->] | [[_ ->] | [[_ ->] | [_ ->]]]]]]]].
  - unfold fcfs. intros [= <- <-]. split; reflexivity.
  - unfold sjf. intros H.
    apply bind_Ok in H. destruct H as (k & _ & [= <- <-]).
    split; [apply sort_from_perm | reflexivity].
  - unfold srtf. intros [= <- <-].
    split; [apply stable_sort_perm | reflexivity].
  - unfold rr. intros H.
    apply bind_Ok in H. destruct H as (l1 & Hloop & [= <- <-]).
    split; [eapply rr_loop_perm; exact Hloop | reflexivity].
  - unfold prio_fcfs. intros [= <- <-].
    split; [apply stable_sort_perm | reflexivity].
  - unfold prio_srtf. intros [= <- <-]. split; [| reflexivity].
    now rewrite !stable_sort_perm.
  - unfold prio_fcfs_no_preemption. intros H.
    apply bind_Ok in H. destruct H as (k & _ & [= <- <-]).
    split; [apply sort_from_perm | reflexivity].
  - discriminate.
Qed.

Lemma NoDup_ids_perm (l l' : list proc_data) :
  Permutation l' l -> NoDup (ids l) -> NoDup (ids l').
Proof.
  intros Hp Hnd. eapply Permutation_NoDup; [| exact Hnd].
  apply Permutation_map. now symmetry.
Qed.

Lemma schedule_execute_ok (method rr_time : Z) (l l' : list proc_data)
  (c c' : list Z) :
  NoDup (ids l) ->
  schedule method rr_time l c = Ok (l', c') ->
  execute l' c' = Ok (run_slots (occupied c') l').
Proof.
  intros Hnd Hs. apply schedule_inv in Hs. destruct Hs as [Hperm ->].
  assert (Hnd' : NoDup (ids l')) by now apply (NoDup_ids_perm l).
  apply execute_spec.
  - exact Hnd'.
  - now apply NoDup_occupied_update.
  - apply incl_occupied_update.
Qed.

(** C9: after the assign step of any policy on a ready list with pairwise
    distinct ids, the occupied slots are pairwise distinct, each one is the
    id of a process of the ready list, and the execution-accounting loop,
    whose search has no bound, completes without running past the end. *)
Theorem assigned_slots_are_distinct_and_found (method rr_time : Z)
  (l l' : list proc_data) (c c' : list Z) :
  NoDup (ids l) ->
  schedule method rr_time l c = Ok (l', c') ->
  NoDup (occupied c')
  /\ incl (occupied c') (ids l')
  /\ execute l' c' = Ok (run_slots (occupied c') l').
Proof.
  intros Hnd Hs.
  assert (Hexec := schedule_execute_ok _ _ _ _ _ _ Hnd Hs).
  apply schedule_inv in Hs. destruct Hs as [Hperm ->].
  assert (Hnd' : NoDup (ids l')) by now apply (NoDup_ids_perm l).
  split; [| split].
  - now apply NoDup_occupied_update.
  - apply incl_occupied_update.
  - exact Hexec.
Qed.

Lemma assigned_slots_are_distinct_and_found_witness :
  NoDup (occupied [1; 3])
  /\ incl (occupied [1; 3]) (ids [mk_proc 3 0 1 1; mk_proc 1 0 2 2; mk_proc 2 0 3 3])
  /\ execute [mk_proc 3 0 1 1; mk_proc 1 0 2 2; mk_proc 2 0 3 3] [1; 3]
     = Ok (run_slots (occupied [1; 3])
             [mk_proc 3 0 1 1; mk_proc 1 0 2 2; mk_proc 2 0 3 3]).
Proof.
  apply (assigned_slots_are_distinct_and_found 1 1
           [mk_proc 1 0 2 2; mk_proc 2 0 3 3; mk_proc 3 0 1 1]
           [mk_proc 3 0 1 1; mk_proc 1 0 2 2; mk_proc 2 0 3 3]
           [0; 0] [1; 3]).
  - unfold ids. simpl. repeat constructor; simpl; intuition discriminate.
  - reflexivity.
Defined.

(** ** Unsigned remaining time *)

Lemma run_slots_runs (s : list Z) (l : list proc_data) (p q : proc_data) :
  In p l -> In (id p) s -> In q (run_once p) -> In q (run_slots s l).
Proof.
  intros Hp Hs Hq. induction l as [| x l IH]; [destruct Hp |].
  rewrite run_slots_cons. apply in_or_app.
  destruct Hp as [-> | Hp]; [left | right; now apply IH].
  replace (in_slots s p) with true by (symmetry; now apply in_slots_true).
  exact Hq.
Qed.

(** C10: a process is admitted with its remaining time equal to its
    execution time; when a process admitted with execution time 0 occupies a
    slot for the first time, the decrement of the accounting loop wraps its
    remaining time to 2^32 - 1 and the process stays in the ready list. *)
Theorem zero_exec_time_wraps (method rr_time : Z) (l l' : list proc_data)
  (c c' : list Z) (i prio : Z) :
  NoDup (ids l) ->
  In (read_proc (i, prio, 0)) l ->
  schedule method rr_time l c = Ok (l', c') ->
  In i c' -> i <> -1 ->
  (forall e, remaining_time (read_proc (i, prio, e)) = e)
  /\ wrap32 (remaining_time (read_proc (i, prio, 0)) - 1) = 2 ^ 32 - 1
  /\ exists l'', execute l' c' = Ok l''
                 /\ In (mk_proc i prio 0 (2 ^ 32 - 1)) l''.
Proof.
  intros Hnd Hp Hs Hslot Hi.
  split; [reflexivity |]. split; [reflexivity |].
  assert (Hexec := schedule_execute_ok _ _ _ _ _ _ Hnd Hs).
  exists (run_slots (occupied c') l'). split; [exact Hexec |].
  apply schedule_inv in Hs. destruct Hs as [Hperm _].
  apply run_slots_runs with (p := read_proc (i, prio, 0)).
  - eapply Permutation_in; [symmetry; exact Hperm | exact Hp].
  - apply occupied_In. now split.
  - now left.
Qed.

Lemma zero_exec_time_wraps_witness :
  exists l'', execute [mk_proc 4 0 0 0; mk_proc 9 1 3 3] [4]
              = Ok l''
              /\ In (mk_proc 4 0 0 (2 ^ 32 - 1)) l''.
Proof.
  apply (zero_exec_time_wraps 0 1 [mk_proc 4 0 0 0; mk_proc 9 1 3 3]
           [mk_proc 4 0 0 0; mk_proc 9 1 3 3] [0] [4] 4 0).
  - unfold ids. simpl. repeat constructor; simpl; intuition discriminate.
  - now left.
  - reflexivity.
  - now left.
  - discriminate.
Defined.

(** ** The admission step *)

Lemma tick_time_irrelevant (method rr_time : Z) (st : state) (t procs : _)
  (rest : list line) (t0 : Z) :
  read st = true -> stdin st = Group t procs :: rest ->
  tick method rr_time (set_time st t0) = tick method rr_time st.
Proof.
  intros Hread Hin. unfold tick, read_input, set_time. simpl.
  now rewrite Hread, Hin.
Qed.

(** C2, as the code has it: the timestamp of an arrival group is never
    compared with the simulated time.  It replaces the simulated time: the
    processes of the group are admitted, the tick runs as it would at any
    other time, and its output record carries the declared timestamp. *)
Theorem tick_adopts_declared_timestamp (method rr_time : Z) (st st' : state)
  (t : Z) (procs : list (Z * Z * Z)) (rest : list line) :
  read st = true ->
  stdin st = Group t procs :: rest ->
  tick method rr_time st = Ok st' ->
  stdout st' = stdout st ++ [(t, cpus_state st')]
  /\ time st' = wrap32 (t + 1)
  /\ (forall t0, tick method rr_time (set_time st t0) = Ok st')
  /\ (exists l, schedule method rr_time
                  (proc_list st ++ map read_proc procs) (cpus_state st)
                = Ok (l, cpus_state st')).
Proof.
  intros Hread Hin Htick.
  assert (Hany : forall t0, tick method rr_time (set_time st t0) = Ok st').
  { intros t0. now rewrite (tick_time_irrelevant _ _ _ t procs rest). }
  unfold tick, read_input in Htick. rewrite Hread, Hin in Htick. simpl in Htick.
  apply bind_Ok in Htick. destruct Htick as ([l c] & Hs & Htick).
  apply bind_Ok in Htick. destruct Htick as (l' & He & [= <-]). simpl.
  repeat split; [exact Hany |]. now exists l.
Qed.

Lemma tick_adopts_declared_timestamp_witness :
  stdout (mk_state [mk_proc 1 0 2 1] [1] 6 true [Blank] [(5, [1])])
  = stdout (initial 1 [Group 5 [(1, 0, 2)]; Blank])
    ++ [(5, cpus_state (mk_state [mk_proc 1 0 2 1] [1] 6 true [Blank] [(5, [1])]))].
Proof.
  apply (tick_adopts_declared_timestamp 0 1
           (initial 1 [Group 5 [(1, 0, 2)]; Blank])
           (mk_state [mk_proc 1 0 2 1] [1] 6 true [Blank] [(5, [1])])
           5 [(1, 0, 2)] [Blank]).
  - reflexivity.
  - reflexivity.
  - reflexivity.
Defined.

(** C2 fails: the first group declares timestamp 5 at simulated time 0; the
    run is not aborted, the group is admitted and a record is printed for
    that tick, under time 5. *)
Lemma mismatched_timestamp_is_accepted :
  time (initial 1 [Group 5 [(1, 0, 2)]; Blank]) = 0
  /\ tick 0 1 (initial 1 [Group 5 [(1, 0, 2)]; Blank])
     = Ok (mk_state [mk_proc 1 0 2 1] [1] 6 true [Blank] [(5, [1])])
  /\ main 0 1 1 4 [Group 5 [(1, 0, 2)]; Blank]
     = Exit (mk_state [] [-1] 8 false [] [(5, [1]); (6, [1]); (7, [-1])]).
Proof. repeat split. Qed.

(** ** One iteration of the loop *)

Lemma known_read_input (st : state) : known (read_input st) = known st.
Proof.
  unfold known, pending, read_input.
  destruct (read st) eqn:Hr; [| now rewrite Hr].
  destruct (stdin st) as [| [| t procs] rest]; simpl.
  - reflexivity.
  - reflexivity.
  - now rewrite <- app_assoc.
Qed.

Lemma cpus_state_read_input (st : state) :
  cpus_state (read_input st) = cpus_state st.
Proof.
  unfold read_input. destruct (read st); [| reflexivity].
  now destruct (stdin st) as [| [| t procs] rest].
Qed.

Lemma stdout_read_input (st : state) : stdout (read_input st) = stdout st.
Proof.
  unfold read_input. destruct (read st); [| reflexivity].
  now destruct (stdin st) as [| [| t procs] rest].
Qed.

Lemma NoDup_app_inv {A : Type} (a b : list A) :
  NoDup (a ++ b) -> NoDup a /\ NoDup b /\ (forall x, In x a -> ~ In x b).
Proof.
  intros H. split; [now apply NoDup_app_remove_r in H |].
  split; [now apply NoDup_app_remove_l in H |].
  induction a as [| y a IH]; [intros x [] |].
  simpl in H. apply NoDup_cons_iff in H. destruct H as [Hy H].
  intros x [<- | Hx] Hb.
  - apply Hy, in_or_app. now right.
  - now apply (IH H x).
Qed.

Lemma NoDup_ids_known (st : state) :
  NoDup (ids (known st)) -> NoDup (ids (proc_list (read_input st))).
Proof.
  rewrite <- known_read_input. unfold known. rewrite ids_app.
  intros H. now apply NoDup_app_remove_r in H.
Qed.

(** What an iteration that completes has done. *)
Lemma tick_inv (method rr_time : Z) (st st' : state) :
  NoDup (ids (known st)) ->
  tick method rr_time st = Ok st' ->
  exists l,
    schedule method rr_time (proc_list (read_input st)) (cpus_state st)
    = Ok (l, cpus_state st')
    /\ Permutation l (proc_list (read_input st))
    /\ cpus_state st' = update_cpus_state l (cpus_state st)
    /\ proc_list st' = run_slots (occupied (cpus_state st')) l
    /\ read st' = read (read_input st)
    /\ stdin st' = stdin (read_input st)
    /\ stdout st' = stdout st ++ [(time (read_input st), cpus_state st')].
Proof.
  intros Hnd Htick. unfold tick in Htick.
  apply bind_Ok in Htick. destruct Htick as ([l c] & Hs & Htick).
  apply bind_Ok in Htick. destruct Htick as (l' & He & [= <-]). simpl.
  rewrite cpus_state_read_input in Hs.
  exists l. rewrite stdout_read_input.
  assert (Hexec := schedule_execute_ok _ _ _ _ _ _ (NoDup_ids_known st Hnd) Hs).
  rewrite Hexec in He. injection He as <-.
  destruct (schedule_inv _ _ _ _ _ _ Hs) as [Hperm Hc].
  repeat split; assumption.
Qed.

(** ** The policies complete *)

Lemma count_id_absent (c : Z) (l : list proc_data) :
  ~ In c (ids l) -> count_id c l = O.
Proof.
  induction l as [| p l IH]; [reflexivity |].
  simpl. intros H. destruct (Z.eqb_spec c (id p)) as [Hc | Hc].
  - exfalso. apply H. left. now symmetry.
  - apply IH. tauto.
Qed.

Lemma count_id_le_1 (c : Z) (l : list proc_data) :
  NoDup (ids l) -> (count_id c l <= 1)%nat.
Proof.
  induction l as [| p l IH]; intros Hnd; simpl; [lia |].
  simpl in Hnd. apply NoDup_cons_iff in Hnd. destruct Hnd as [Hp Hnd].
  destruct (Z.eqb_spec c (id p)) as [-> | Hc].
  - rewrite count_id_absent by exact Hp. lia.
  - now apply IH.
Qed.

Lemma skip_executing_ok (l : list proc_data) (c : list Z) (k : nat) :
  NoDup (ids l) -> (k <= length l)%nat ->
  exists k', skip_executing l k c = Ok k' /\ (k <= k' <= length l)%nat.
Proof.
  intros Hnd. revert k. induction c as [| x c IH]; intros k Hk; simpl.
  - exists k. split; [reflexivity | lia].
  - destruct ((k =? length l)%nat || (x =? -1)) eqn:Hstop.
    + exists k. split; [reflexivity | lia].
    + apply orb_false_iff in Hstop. destruct Hstop as [Hend _].
      apply Nat.eqb_neq in Hend.
      assert (H1 := count_id_le_1 x l Hnd).
      destruct (Nat.leb_spec (k + count_id x l) (length l)) as [Hle | Hgt];
        [| lia].
      destruct (IH _ Hle) as (k' & Hk' & Hb).
      exists k'. split; [exact Hk' | lia].
Qed.

Lemma schedule_ok (method rr_time : Z) (l : list proc_data) (c : list Z) :
  valid_method method -> method <> 3 -> NoDup (ids l) ->
  exists l' c', schedule method rr_time l c = Ok (l', c').
Proof.
  intros Hm Hrr Hnd.
  destruct (schedule_cases method rr_time l c)
    as [[_ ->] | [[_ ->] | [[_ ->] | [[H3 _] | [[_ ->] | [[_ ->] | [[_ ->] | [H _]]]]]]]].
  - now eexists _, _.
  - unfold sjf.
    destruct (skip_executing_ok l c 0 Hnd (Nat.le_0_l _)) as (k & -> & _).
    now eexists _, _.
  - now eexists _, _.
  - contradiction.
  - now eexists _, _.
  - now eexists _, _.
  - unfold prio_fcfs_no_preemption.
    destruct (skip_executing_ok l c 0 Hnd (Nat.le_0_l _)) as (k & -> & _).
    now eexists _, _.
  - unfold valid_method in Hm. lia.
Qed.

Lemma tick_ok (method rr_time : Z) (st : state) :
  valid_method method -> method <> 3 ->
  NoDup (ids (known st)) ->
  exists st', tick method rr_time st = Ok st'.
Proof.
  intros Hm Hrr Hnd. unfold tick.
  assert (Hnd1 := NoDup_ids_known st Hnd).
  destruct (schedule_ok method rr_time (proc_list (read_input st))
              (cpus_state (read_input st)) Hm Hrr Hnd1) as (l & c & Hs).
  rewrite Hs. simpl.
  rewrite (schedule_execute_ok _ _ _ _ _ _ Hnd1 Hs). simpl.
  now eexists.
Qed.

(** Distinct ids stay distinct. *)
Lemma tick_NoDup_known (method rr_time : Z) (st st' : state) :
  NoDup (ids (known st)) ->
  tick method rr_time st = Ok st' ->
  NoDup (ids (known st')).
Proof.
  intros Hnd Htick.
  destruct (tick_inv _ _ _ _ Hnd Htick)
    as (l & _ & Hperm & _ & Hl' & Hread & Hin & _).
  rewrite <- known_read_input in Hnd.
  unfold known, pending in *. rewrite Hl', Hread, Hin.
  set (pend := if read (read_input st) then arrivals (stdin (read_input st)) else []) in *.
  rewrite ids_app in *.
  apply NoDup_app_inv in Hnd. destruct Hnd as (Hl & Hp & Hdis).
  apply NoDup_app.
  - apply NoDup_ids_run_slots. now apply (NoDup_ids_perm (proc_list (read_input st))).
  - exact Hp.
  - intros x Hx. apply Hdis.
    apply ids_run_slots_incl in Hx.
    eapply Permutation_in; [| exact Hx]. now apply Permutation_map.
Qed.

(** ** The loop makes progress *)

Lemma load_bounds (p : proc_data) : 1 <= load p <= 2 ^ 32.
Proof.
  unfold load. change (2 ^ 32) with 4294967296.
  destruct (Z.ltb_spec 0 (remaining_time p));
    destruct (Z.ltb_spec (remaining_time p) 4294967296); simpl; lia.
Qed.

Lemma total_load_nonneg (l : list proc_data) : 0 <= total_load l.
Proof.
  induction l as [| p l IH]; simpl; [lia |].
  pose proof (load_bounds p). lia.
Qed.

Lemma total_load_app (a b : list proc_data) :
  total_load (a ++ b) = total_load a + total_load b.
Proof. induction a as [| p a IH]; simpl; [reflexivity | rewrite IH; lia]. Qed.

Lemma total_load_perm (l l' : list proc_data) :
  Permutation l l' -> total_load l = total_load l'.
Proof. induction 1; simpl; lia. Qed.

Lemma wrap32_bounds (z : Z) : 0 <= wrap32 z < 2 ^ 32.
Proof. unfold wrap32. apply Z.mod_pos_bound. reflexivity. Qed.

Lemma load_cases (p : proc_data) :
  (0 < remaining_time p < 2 ^ 32 /\ load p = remaining_time p)
  \/ (~ 0 < remaining_time p < 2 ^ 32 /\ load p = 2 ^ 32).
Proof.
  unfold load.
  destruct (Z.ltb_spec 0 (remaining_time p));
    destruct (Z.ltb_spec (remaining_time p) (2 ^ 32));
    cbn [andb]; [left | right | right | right]; split; try reflexivity; lia.
Qed.

Lemma total_load_single (p : proc_data) : total_load [p] = load p.
Proof. cbn [total_load]. lia. Qed.

(** A tick on a CPU takes at least one unit of load away, and exactly one
    when the remaining time is an [unsigned int]. *)
Lemma run_once_load (p : proc_data) :
  total_load (run_once p) <= load p - 1
  /\ (0 <= remaining_time p < 2 ^ 32 -> total_load (run_once p) = load p - 1).
Proof.
  unfold run_once.
  pose proof (wrap32_bounds (remaining_time p - 1)) as Hw.
  pose proof (load_bounds p) as Hl.
  assert (Hsmall : 0 < remaining_time p < 2 ^ 32 ->
                   wrap32 (remaining_time p - 1) = remaining_time p - 1).
  { intros Hr. unfold wrap32. apply Z.mod_small. lia. }
  assert (Hzero : remaining_time p = 0 ->
                  wrap32 (remaining_time p - 1) = 2 ^ 32 - 1).
  { intros ->. reflexivity. }
  destruct (Z.eqb_spec (wrap32 (remaining_time p - 1)) 0) as [H0 | H0].
  - cbn [total_load].
    destruct (load_cases p) as [[Hr Hp] | [Hr Hp]].
    + specialize (Hsmall Hr). lia.
    + split; [lia |]. intros Hr'.
      assert (Hz : remaining_time p = 0) by lia.
      specialize (Hzero Hz). change (2 ^ 32) with 4294967296 in *. lia.
  - rewrite total_load_single.
    assert (Hnew : load (set_remaining p (wrap32 (remaining_time p - 1)))
                   = wrap32 (remaining_time p - 1)).
    { destruct (load_cases (set_remaining p (wrap32 (remaining_time p - 1))))
        as [[_ Hq] | [Hq _]]; [exact Hq |].
      cbn [set_remaining remaining_time] in Hq. lia. }
    rewrite Hnew.
    destruct (load_cases p) as [[Hr Hp] | [Hr Hp]].
    + specialize (Hsmall Hr). lia.
    + split; [lia |]. intros Hr'.
      assert (Hz : remaining_time p = 0) by lia.
      specialize (Hzero Hz). lia.
Qed.

Lemma run_slots_load (s : list Z) (l : list proc_data) :
  total_load (run_slots s l) <= total_load l.
Proof.
  induction l as [| p l IH]; [reflexivity |].
  rewrite run_slots_cons, total_load_app. simpl total_load at 3.
  destruct (in_slots s p).
  - pose proof (run_once_load p). lia.
  - simpl. lia.
Qed.

Lemma run_slots_load_runs (s : list Z) (l : list proc_data) (x : Z) :
  In x s -> In x (ids l) ->
  total_load (run_slots s l) <= total_load l - 1.
Proof.
  intros Hs. induction l as [| p l IH]; [intros [] |].
  rewrite run_slots_cons, total_load_app. simpl total_load at 3.
  intros [Hp | Hx].
  - replace (in_slots s p) with true
      by (symmetry; apply in_slots_true; now rewrite Hp).
    pose proof (run_once_load p). pose proof (run_slots_load s l). lia.
  - specialize (IH Hx). destruct (in_slots s p).
    + pose proof (run_once_load p). lia.
    + simpl. lia.
Qed.

Lemma all_cpus_sleeping_occupied (c : list Z) :
  all_cpus_sleeping c = true <-> occupied c = [].
Proof.
  unfold all_cpus_sleeping, occupied.
  induction c as [| x c IH]; simpl; [tauto |].
  destruct (x =? -1); simpl; [exact IH |].
  split; discriminate.
Qed.

Lemma tick_makes_progress (method rr_time : Z) (st st' : state) :
  NoDup (ids (known st)) ->
  loop_cond st = true ->
  tick method rr_time st = Ok st' ->
  0 <= ticks_left st' < ticks_left st.
Proof.
  intros Hnd Hcond Htick.
  destruct (tick_inv _ _ _ _ Hnd Htick)
    as (l & _ & Hperm & Hc & Hl' & Hread & Hin & _).
  assert (Hload : total_load (known st')
                  <= total_load (known (read_input st))
                  /\ (occupied (cpus_state st') <> [] ->
                      total_load (known st')
                      <= total_load (known (read_input st)) - 1)).
  { unfold known, pending. rewrite Hl', Hread, Hin, !total_load_app.
    rewrite <- (total_load_perm _ _ Hperm).
    split; [pose proof (run_slots_load (occupied (cpus_state st')) l); lia |].
    intros Hocc. destruct (occupied (cpus_state st')) as [| x s] eqn:Hs;
      [contradiction |].
    assert (Hx : In x (ids l)).
    { apply (incl_occupied_update l (cpus_state st)).
      rewrite <- Hc, Hs. now left. }
    pose proof (run_slots_load_runs (x :: s) l x (or_introl eq_refl) Hx). lia. }
  rewrite known_read_input in Hload. destruct Hload as [Hle Hlt].
  unfold ticks_left. rewrite Hread, Hin.
  pose proof (total_load_nonneg (known st')) as Hpos.
  assert (Hsleep : all_cpus_sleeping (cpus_state st') = false ->
                   occupied (cpus_state st') <> []).
  { intros Hf Ho. apply all_cpus_sleeping_occupied in Ho. congruence. }
  assert (Hinput :
            (if read (read_input st)
             then 2 * Z.of_nat (length (stdin (read_input st))) + 2 else 0)
            <= (if read st then 2 * Z.of_nat (length (stdin st)) + 2 else 0)
               - (if read st then 2 else 0)).
  { unfold read_input. destruct (read st) eqn:Hr; [| rewrite Hr; lia].
    destruct (stdin st) as [| [| t procs] rest];
      cbn [read stdin length]; rewrite ?Nat2Z.inj_succ; lia. }
  assert (Hinput0 :
            0 <= (if read (read_input st)
                  then 2 * Z.of_nat (length (stdin (read_input st))) + 2
                  else 0)).
  { destruct (read (read_input st)); lia. }
  unfold loop_cond in Hcond.
  destruct (read st) eqn:Hr.
  - destruct (all_cpus_sleeping (cpus_state st'));
      destruct (all_cpus_sleeping (cpus_state st)); lia.
  - cbn [orb] in Hcond. apply negb_true_iff in Hcond. rewrite Hcond.
    destruct (all_cpus_sleeping (cpus_state st')) eqn:Hs'; [lia |].
    specialize (Hlt (Hsleep eq_refl)). lia.
Qed.

(** ** Runs *)

Lemma tick_stdout (method rr_time : Z) (st st' : state) :
  tick method rr_time st = Ok st' ->
  stdout st' = stdout st ++ [(time (read_input st), cpus_state st')].
Proof.
  unfold tick. intros H.
  apply bind_Ok in H. destruct H as ([l c] & _ & H).
  apply bind_Ok in H. destruct H as (l' & _ & [= <-]). simpl.
  now rewrite stdout_read_input.
Qed.

Lemma main_loop_fuel_mono (method rr_time : Z) (fuel fuel' : nat)
  (st st' : state) :
  main_loop method rr_time fuel st = Exit st' -> (fuel <= fuel')%nat ->
  main_loop method rr_time fuel' st = Exit st'.
Proof.
  revert fuel' st. induction fuel as [| fuel IH]; intros fuel' st H Hle.
  - destruct fuel'; simpl in *; destruct (loop_cond st);
      try discriminate; exact H.
  - destruct fuel' as [| fuel']; [lia |]. simpl in *.
    destruct (loop_cond st); [| exact H].
    destruct (tick method rr_time st) as [st1 | f]; [| discriminate].
    apply IH; [exact H | lia].
Qed.

Section Run.
Variables (method rr_time : Z) (cpu_count : nat) (input : list line).

Local Abbreviation reach := (reachable method rr_time cpu_count input).

Lemma reachable_NoDup (st : state) :
  NoDup (ids (arrivals input)) -> reach st -> NoDup (ids (known st)).
Proof.
  intros Hin. induction 1 as [| st st' _ IH _ Htick].
  - exact Hin.
  - eapply tick_NoDup_known; eassumption.
Qed.

Lemma reachable_inv (st : state) :
  reach st ->
  st = initial cpu_count input
  \/ exists prev, reach prev /\ loop_cond prev = true
                  /\ tick method rr_time prev = Ok st.
Proof.
  intros [| prev st' Hprev Hcond Htick]; [now left |].
  right. now exists prev.
Qed.

(** From every state of a run the loop comes to its end, after as many
    iterations as it prints records. *)
Lemma main_loop_exits (st : state) :
  valid_method method -> method <> 3 ->
  NoDup (ids (arrivals input)) ->
  reach st ->
  exists fuel st',
    main_loop method rr_time fuel st = Exit st'
    /\ reach st'
    /\ loop_cond st' = false
    /\ length (stdout st') = (length (stdout st) + fuel)%nat.
Proof.
  intros Hm Hrr Hin.
  assert (Hgen : forall n st, reach st -> ticks_left st < Z.of_nat n ->
            exists fuel st',
              main_loop method rr_time fuel st = Exit st'
              /\ reach st'
              /\ loop_cond st' = false
              /\ length (stdout st') = (length (stdout st) + fuel)%nat).
  { clear st. induction n as [| n IH]; intros st Hst Hn.
    - destruct (loop_cond st) eqn:Hcond.
      + exfalso. pose proof (reachable_NoDup st Hin Hst) as Hnd.
        destruct (tick_ok method rr_time st Hm Hrr Hnd) as (st1 & Htick).
        pose proof (tick_makes_progress _ _ _ _ Hnd Hcond Htick). lia.
      + exists O, st. simpl. rewrite Hcond. repeat split; auto.
    - destruct (loop_cond st) eqn:Hcond.
      + pose proof (reachable_NoDup st Hin Hst) as Hnd.
        destruct (tick_ok method rr_time st Hm Hrr Hnd) as (st1 & Htick).
        pose proof (tick_makes_progress _ _ _ _ Hnd Hcond Htick) as Hprog.
        assert (Hst1 : reach st1) by (eapply reach_tick; eassumption).
        destruct (IH st1 Hst1) as (fuel & st' & Hrun & Hst' & Hend & Hlen);
          [lia |].
        exists (S fuel), st'. simpl. rewrite Hcond, Htick.
        repeat split; [exact Hrun | exact Hst' | exact Hend |].
        rewrite Hlen, (tick_stdout _ _ _ _ Htick), length_app. simpl. lia.
      + exists O, st. simpl. rewrite Hcond. repeat split; auto. }
  intros Hst.
  apply (Hgen (S (Z.to_nat (ticks_left st))) st Hst). lia.
Qed.
End Run.

Lemma main_loop_reachable (method rr_time : Z) (cpu_count : nat)
  (input : list line) (fuel : nat) (st : state) :
  reachable method rr_time cpu_count input st ->
  match main_loop method rr_time fuel st with
  | Exit st' => reachable method rr_time cpu_count input st'
  | Abort f out =>
      exists st', reachable method rr_time cpu_count input st'
                  /\ out = stdout st'
  | OutOfFuel => True
  end.
Proof.
  revert st. induction fuel as [| fuel IH]; intros st Hst; simpl.
  - destruct (loop_cond st); [exact I | exact Hst].
  - destruct (loop_cond st) eqn:Hcond; [| exact Hst].
    destruct (tick method rr_time st) as [st1 | f] eqn:Htick.
    + apply IH. eapply reach_tick; eassumption.
    + now exists st.
Qed.


(** C6, as the code has it: for every input whose process ids are pairwise
    distinct and every valid policy other than round robin, the loop reaches
    the state where the input is exhausted and every CPU is idle after
    finitely many iterations, one per output record, and then stops for good.
    The last record printed is an all-idle one: it belongs to an iteration in
    which no process runs or completes, so it comes after the iteration in
    which the last process completes. *)
Theorem main_reaches_done (method rr_time : Z) (cpu_count : nat)
  (input : list line) :
  valid_method method ->
  method <> 3 ->
  NoDup (ids (arrivals input)) ->
  exists fuel st,
    main method cpu_count rr_time fuel input = Exit st
    /\ (forall fuel', (fuel <= fuel')%nat ->
                      main method cpu_count rr_time fuel' input = Exit st)
    /\ read st = false
    /\ all_cpus_sleeping (cpus_state st) = true
    /\ length (stdout st) = fuel
    /\ exists prev out t,
         reachable method rr_time cpu_count input prev
         /\ tick method rr_time prev = Ok st
         /\ stdout st = out ++ [(t, cpus_state st)]
         /\ Permutation (proc_list st) (proc_list (read_input prev)).
Proof.
  intros Hm Hrr Hin.
  destruct (main_loop_exits method rr_time cpu_count input
              (initial cpu_count input) Hm Hrr Hin
              (reach_initial _ _ _ _))
    as (fuel & st & Hrun & Hst & Hend & Hlen).
  exists fuel, st. unfold main.
  unfold loop_cond in Hend. apply orb_false_iff in Hend.
  destruct Hend as [Hread Hsleep]. apply negb_false_iff in Hsleep.
  split; [exact Hrun |].
  split; [intros fuel' Hle; now apply (main_loop_fuel_mono _ _ fuel) |].
  split; [exact Hread |]. split; [exact Hsleep |]. split; [exact Hlen |].
  destruct (reachable_inv _ _ _ _ _ Hst) as [-> | (prev & Hprev & _ & Htick)];
    [discriminate |].
  pose proof (reachable_NoDup _ _ _ _ _ Hin Hprev) as Hnd.
  destruct (tick_inv _ _ _ _ Hnd Htick)
    as (l & _ & Hperm & _ & Hl' & _ & _ & Hout).
  exists prev, (stdout prev), (time (read_input prev)).
  repeat split; [exact Hprev | exact Htick | exact Hout |].
  rewrite Hl'. apply all_cpus_sleeping_occupied in Hsleep. rewrite Hsleep.
  rewrite run_slots_absent by auto. exact Hperm.
Qed.

Lemma main_reaches_done_witness :
  exists fuel st,
    main 0 1 1 fuel [Group 0 [(1, 0, 2); (2, 0, 1)]; Blank] = Exit st
    /\ read st = false
    /\ all_cpus_sleeping (cpus_state st) = true
    /\ length (stdout st) = fuel.
Proof.
  destruct (main_reaches_done 0 1 1 [Group 0 [(1, 0, 2); (2, 0, 1)]; Blank])
    as (fuel & st & Hrun & _ & Hread & Hsleep & Hlen & _).
  - unfold valid_method. lia.
  - discriminate.
  - unfold ids. simpl. repeat constructor; simpl; intuition discriminate.
  - exists fuel, st. repeat split; assumption.
Defined.

(** C6 fails: FCFS on one CPU with processes 1 (two ticks) and 2 (one tick).
    Process 2, the last one, completes in the tick printed as [2 2]; the loop
    then makes one more iteration and prints [3 -1]. *)
Lemma last_record_is_after_last_completion :
  main 0 1 1 3 [Group 0 [(1, 0, 2); (2, 0, 1)]; Blank] = OutOfFuel
  /\ main_loop 0 1 3 (initial 1 [Group 0 [(1, 0, 2); (2, 0, 1)]; Blank])
     = main_loop 0 1 0
         (mk_state [] [2] 3 false [] [(0, [1]); (1, [1]); (2, [2])])
  /\ main 0 1 1 4 [Group 0 [(1, 0, 2); (2, 0, 1)]; Blank]
     = Exit (mk_state [] [-1] 4 false []
               [(0, [1]); (1, [1]); (2, [2]); (3, [-1])]).
Proof. repeat split. Qed.

(** ** What a tick does to the processes still to run *)

Lemma tick_known (method rr_time : Z) (st st' : state) :
  NoDup (ids (known st)) ->
  tick method rr_time st = Ok st' ->
  exists l pend,
    Permutation (l ++ pend) (known st)
    /\ NoDup (ids l)
    /\ cpus_state st' = update_cpus_state l (cpus_state st)
    /\ proc_list st' = run_slots (occupied (cpus_state st')) l
    /\ known st' = run_slots (occupied (cpus_state st')) l ++ pend
    /\ stdout st' = stdout st ++ [(time (read_input st), cpus_state st')].
Proof.
  intros Hnd Htick.
  destruct (tick_inv _ _ _ _ Hnd Htick)
    as (l & _ & Hperm & Hc & Hl' & Hread & Hin & Hout).
  exists l, (pending (read_input st)).
  split; [| split; [| split; [| split; [| split]]]].
  - rewrite <- known_read_input. unfold known.
    now apply Permutation_app_tail.
  - apply (NoDup_ids_perm (proc_list (read_input st))); [exact Hperm |].
    now apply NoDup_ids_known.
  - exact Hc.
  - exact Hl'.
  - unfold known, pending. now rewrite Hl', Hread, Hin.
  - exact Hout.
Qed.

Lemma run_slots_Forall (P : proc_data -> Prop) (s : list Z)
  (l : list proc_data) :
  (forall p, P p -> Forall P (run_once p)) ->
  Forall P l -> Forall P (run_slots s l).
Proof.
  intros Hrun. induction 1 as [| p l Hp Hl IH]; [constructor |].
  rewrite run_slots_cons. apply Forall_app. split; [| exact IH].
  destruct (in_slots s p); [now apply Hrun | now constructor].
Qed.

Lemma tick_Forall (P : proc_data -> Prop) (method rr_time : Z)
  (st st' : state) :
  (forall p, P p -> Forall P (run_once p)) ->
  NoDup (ids (known st)) -> Forall P (known st) ->
  tick method rr_time st = Ok st' ->
  Forall P (known st').
Proof.
  intros Hrun Hnd HP Htick.
  destruct (tick_known _ _ _ _ Hnd Htick) as (l & pend & Hperm & _ & _ & _ & Hk & _).
  rewrite Hk.
  assert (H : Forall P (l ++ pend)).
  { eapply Permutation_Forall; [symmetry; exact Hperm | exact HP]. }
  apply Forall_app in H. destruct H as [Hl Hpend].
  apply Forall_app. split; [| exact Hpend].
  now apply run_slots_Forall.
Qed.

Lemma run_once_range (p : proc_data) :
  Forall (fun q => 0 <= remaining_time q < 2 ^ 32) (run_once p).
Proof.
  unfold run_once. destruct (_ =? 0); repeat constructor;
    apply (wrap32_bounds (remaining_time p - 1)).
Qed.

Lemma run_once_id_property (P : Z -> Prop) (p : proc_data) :
  P (id p) -> Forall (fun q => P (id q)) (run_once p).
Proof.
  intros Hp. apply Forall_forall. intros q Hq.
  now rewrite (run_once_ids p q Hq).
Qed.

(** ** Load of one id *)

Lemma load_of_app (i : Z) (a b : list proc_data) :
  load_of i (a ++ b) = load_of i a + load_of i b.
Proof. unfold load_of. now rewrite filter_app, total_load_app. Qed.

Lemma load_of_perm (i : Z) (l l' : list proc_data) :
  Permutation l l' -> load_of i l = load_of i l'.
Proof. intros H. apply total_load_perm. now apply Permutation_filter. Qed.

Lemma load_of_cons (i : Z) (p : proc_data) (l : list proc_data) :
  load_of i (p :: l) = (if id p =? i then load p else 0) + load_of i l.
Proof.
  unfold load_of, has_id. simpl. destruct (id p =? i); simpl; lia.
Qed.

Lemma load_of_absent (i : Z) (l : list proc_data) :
  ~ In i (ids l) -> load_of i l = 0.
Proof.
  induction l as [| p l IH]; [reflexivity |].
  intros H. rewrite load_of_cons, IH by (intros Hl; apply H; now right).
  destruct (Z.eqb_spec (id p) i) as [Hp | _]; [| reflexivity].
  exfalso. apply H. now left.
Qed.

Lemma load_of_present (p : proc_data) (l : list proc_data) :
  NoDup (ids l) -> In p l -> load_of (id p) l = load p.
Proof.
  induction l as [| q l IH]; [intros _ [] |].
  simpl. intros Hnd Hp. apply NoDup_cons_iff in Hnd. destruct Hnd as [Hq Hnd].
  rewrite load_of_cons. destruct Hp as [-> | Hp].
  - rewrite Z.eqb_refl, load_of_absent by exact Hq. lia.
  - destruct (Z.eqb_spec (id q) (id p)) as [Heq | _].
    + exfalso. apply Hq. rewrite Heq. now apply In_ids.
    + now rewrite IH.
Qed.

Lemma load_of_run_once (i : Z) (p : proc_data) :
  load_of i (run_once p)
  = if id p =? i then total_load (run_once p) else 0.
Proof.
  unfold load_of.
  destruct (Z.eqb_spec (id p) i) as [Hp | Hp].
  - f_equal. apply filter_all. intros q Hq. unfold has_id.
    rewrite (run_once_ids p q Hq). now apply Z.eqb_eq.
  - rewrite filter_none; [reflexivity |]. intros q Hq. unfold has_id.
    rewrite (run_once_ids p q Hq). now apply Z.eqb_neq.
Qed.

(** Execution leaves the load of the ids outside the slots as it is. *)
Lemma load_of_run_slots_idle (i : Z) (s : list Z) (l : list proc_data) :
  ~ In i s -> load_of i (run_slots s l) = load_of i l.
Proof.
  intros Hs. induction l as [| p l IH]; [reflexivity |].
  rewrite run_slots_cons, load_of_app, load_of_cons, IH. f_equal.
  destruct (in_slots s p) eqn:Hin.
  - apply in_slots_true in Hin. rewrite load_of_run_once.
    destruct (Z.eqb_spec (id p) i) as [Hp | _]; [| reflexivity].
    exfalso. apply Hs. now rewrite <- Hp.
  - rewrite load_of_cons. change (load_of i []) with 0. lia.
Qed.

(** Execution takes one unit from the load of an id that is in a slot. *)
Lemma load_of_run_slots_busy (i : Z) (s : list Z) (l : list proc_data) :
  NoDup (ids l) ->
  Forall (fun p => 0 <= remaining_time p < 2 ^ 32) l ->
  In i s -> In i (ids l) ->
  load_of i (run_slots s l) = load_of i l - 1.
Proof.
  intros Hnd Hr Hs. induction l as [| p l IH]; [intros [] |].
  simpl in Hnd. apply NoDup_cons_iff in Hnd. destruct Hnd as [Hp Hnd].
  apply Forall_cons_iff in Hr. destruct Hr as [Hrp Hr].
  rewrite run_slots_cons, load_of_app, load_of_cons.
  intros [Hi | Hi].
  - subst i. rewrite Z.eqb_refl.
    replace (in_slots s p) with true
      by (symmetry; now apply in_slots_true).
    rewrite load_of_run_once, Z.eqb_refl.
    rewrite (proj2 (run_once_load p) Hrp).
    rewrite !load_of_absent; [lia | exact Hp |].
    intros H. apply Hp. eapply ids_run_slots_incl. exact H.
  - rewrite (IH Hnd Hr Hi).
    destruct (Z.eqb_spec (id p) i) as [Heq | Hne].
    + exfalso. apply Hp. now rewrite Heq.
    + destruct (in_slots s p).
      * rewrite load_of_run_once.
        destruct (Z.eqb_spec (id p) i); [contradiction | lia].
      * rewrite load_of_cons. change (load_of i []) with 0.
        destruct (Z.eqb_spec (id p) i); [contradiction | lia].
Qed.

Lemma appearances_app (i : Z) (out : list record) (t : Z) (c : list Z) :
  Z.of_nat (appearances i (out ++ [(t, c)]))
  = Z.of_nat (appearances i out) + (if existsb (Z.eqb i) c then 1 else 0).
Proof.
  unfold appearances. rewrite filter_app, length_app. cbn [filter snd].
  rewrite Nat2Z.inj_add. f_equal.
  now destruct (existsb (Z.eqb i) c).
Qed.

Lemma existsb_eqb_In (i : Z) (c : list Z) :
  existsb (Z.eqb i) c = true <-> In i c.
Proof.
  rewrite existsb_exists. split.
  - intros (x & Hx & Heq). apply Z.eqb_eq in Heq. now subst.
  - intros H. exists i. split; [exact H | apply Z.eqb_refl].
Qed.


(** ** Invariants of a run *)

Lemma arrivals_fresh (input : list line) :
  Forall (fun p => remaining_time p = exec_time p) (arrivals input).
Proof.
  induction input as [| [| t procs] rest IH]; simpl; try constructor.
  apply Forall_app. split; [| exact IH].
  apply Forall_forall. intros p Hp. apply in_map_iff in Hp.
  destruct Hp as ([[i pr] e] & <- & _). reflexivity.
Qed.

Section RunInvariants.
Variables (method rr_time : Z) (cpu_count : nat) (input : list line).
Hypothesis distinct_input : NoDup (ids (arrivals input)).

Local Abbreviation reach := (reachable method rr_time cpu_count input).

Lemma reachable_Forall (P : proc_data -> Prop) (st : state) :
  (forall p, P p -> Forall P (run_once p)) ->
  Forall P (arrivals input) ->
  reach st -> Forall P (known st).
Proof.
  intros Hrun Hin Hst. induction Hst as [| st st' Hst IH _ Htick].
  - exact Hin.
  - eapply tick_Forall; try eassumption.
    now apply reachable_NoDup with (1 := distinct_input) in Hst.
Qed.


(** Every tick in which an id holds a slot is printed once and takes one
    unit from the load of that id. *)
Lemma reachable_conserves (st : state) (i : Z) :
  Forall (fun p => 0 <= remaining_time p < 2 ^ 32) (arrivals input) ->
  reach st -> i <> -1 ->
  Z.of_nat (appearances i (stdout st)) + load_of i (known st)
  = load_of i (arrivals input).
Proof.
  intros Hrange Hst Hi. induction Hst as [| st st' Hst IH _ Htick].
  - reflexivity.
  - pose proof (reachable_NoDup _ _ _ _ _ distinct_input Hst) as Hnd.
    pose proof (reachable_Forall _ st (fun p _ => run_once_range p) Hrange Hst)
      as Hr.
    destruct (tick_known _ _ _ _ Hnd Htick)
      as (l & pend & Hperm & Hndl & Hc & _ & Hk & Hout).
    rewrite <- IH, <- (load_of_perm i _ _ Hperm), Hk, Hout.
    rewrite appearances_app, !load_of_app.
    assert (Hrl : Forall (fun p => 0 <= remaining_time p < 2 ^ 32) l).
    { eapply Permutation_Forall in Hr; [| symmetry; exact Hperm].
      apply Forall_app in Hr. tauto. }
    destruct (existsb (Z.eqb i) (cpus_state st')) eqn:Hslot.
    + apply existsb_eqb_In in Hslot.
      assert (Hocc : In i (occupied (cpus_state st')))
        by (apply occupied_In; now split).
      rewrite (load_of_run_slots_busy i _ l Hndl Hrl Hocc); [lia |].
      apply (incl_occupied_update l (cpus_state st)). now rewrite <- Hc.
    + rewrite load_of_run_slots_idle; [lia |].
      intros Hocc. apply occupied_In in Hocc. destruct Hocc as [Hocc _].
      apply existsb_eqb_In in Hocc. congruence.
Qed.

End RunInvariants.

Lemma well_formed_load (input : list line) (p : proc_data) :
  Forall well_formed_proc (arrivals input) -> In p (arrivals input) ->
  id p <> -1 /\ 0 <= remaining_time p < 2 ^ 32 /\ load p = exec_time p
  /\ 0 < exec_time p.
Proof.
  intros Hwf Hp.
  pose proof (arrivals_fresh input) as Hfresh.
  rewrite Forall_forall in Hwf, Hfresh.
  destruct (Hwf p Hp) as [Hid He]. specialize (Hfresh p Hp).
  destruct (load_cases p) as [[_ Hl] | [Hr _]]; [| lia].
  split; [exact Hid | split; [lia | split; lia]].
Qed.




(** ** The non-preemptive policies *)

Lemma read_input_proc_list (st : state) :
  exists new, proc_list (read_input st) = proc_list st ++ new.
Proof.
  unfold read_input. destruct (read st).
  - destruct (stdin st) as [| [| t procs] rest]; simpl.
    + exists []. now rewrite app_nil_r.
    + exists []. now rewrite app_nil_r.
    + now eexists.
  - exists []. now rewrite app_nil_r.
Qed.

Lemma in_slots_cons_length (x : Z) (a : list Z) (l : list proc_data) :
  (length (filter (in_slots (x :: a)) l)
   <= count_id x l + length (filter (in_slots a) l))%nat.
Proof.
  induction l as [| p l IH]; [simpl; lia |].
  cbn [filter count_id]. unfold in_slots at 1. cbn [existsb].
  fold (in_slots a p). rewrite (Z.eqb_sym (id p) x).
  destruct (x =? id p); destruct (in_slots a p); cbn [orb length]; lia.
Qed.

(** The offset [skip_executing] returns covers every process whose id is in
    a slot before the first idle one, unless it is the end of the list. *)
Lemma skip_executing_covers (l : list proc_data) (c : list Z) (k k' : nat) :
  skip_executing l k c = Ok k' ->
  k' = length l
  \/ (k + length (filter (in_slots (active_slots c)) l) <= k')%nat.
Proof.
  revert k. induction c as [| x c IH]; intros k; simpl.
  - intros [= <-]. right. rewrite filter_none by reflexivity. simpl. lia.
  - destruct (Nat.eqb_spec k (length l)) as [Hend | Hend]; simpl.
    + intros [= <-]. now left.
    + destruct (Z.eqb_spec x (-1)) as [Hx | Hx].
      * intros [= <-]. right. rewrite filter_none by reflexivity. simpl. lia.
      * destruct (Nat.leb_spec (k + count_id x l) (length l)) as [Hle | Hgt];
          [| discriminate].
        intros H. destruct (IH _ H) as [Hk' | Hk']; [now left | right].
        pose proof (in_slots_cons_length x (active_slots c) l). lia.
Qed.

Lemma idle_last_active (c : list Z) (x : Z) :
  idle_last c -> In x c -> 0 <= x -> In x (active_slots c).
Proof.
  intros (occ & m & -> & Hocc) Hx Hpos.
  rewrite active_slots_idle_last by exact Hocc.
  apply in_app_or in Hx. destruct Hx as [Hx | Hx]; [exact Hx |].
  apply repeat_spec in Hx. lia.
Qed.

Lemma nonpreemptive_schedule_inv (method rr_time : Z) (pl l : list proc_data)
  (c c' : list Z) :
  method = 1 \/ method = 6 ->
  schedule method rr_time pl c = Ok (l, c') ->
  exists k, skip_executing pl 0 c = Ok k
            /\ firstn k l = firstn k pl
            /\ forall j, (j <= k)%nat -> firstn j l = firstn j pl.
Proof.
  intros [-> | ->]; simpl; unfold sjf, prio_fcfs_no_preemption; intros H;
    apply bind_Ok in H; destruct H as (k & Hk & [= <- <-]);
    exists k; (split; [exact Hk |]);
    (split; [| intros j Hj]); now apply sort_from_firstn.
Qed.

Lemma firstn_le_incl {A : Type} (j n : nat) (l : list A) :
  (j <= n)%nat -> incl (firstn j l) (firstn n l).
Proof.
  intros Hjn x Hx.
  replace (firstn j l) with (firstn j (firstn n l)) in Hx
    by (rewrite firstn_firstn; f_equal; lia).
  eapply In_firstn_list. exact Hx.
Qed.

Lemma nonneg_ids_In (l : list proc_data) (x : Z) :
  nonneg_ids l -> In x (ids l) -> 0 <= x.
Proof.
  unfold nonneg_ids. rewrite Forall_forall. intros H Hx.
  apply in_map_iff in Hx. destruct Hx as (p & <- & Hp). now apply H.
Qed.

Lemma nonneg_ids_perm (l l' : list proc_data) :
  Permutation l' l -> nonneg_ids l -> nonneg_ids l'.
Proof.
  unfold nonneg_ids. intros Hp H.
  eapply Permutation_Forall; [symmetry; exact Hp | exact H].
Qed.

Lemma update_cpus_state_idle_last (l : list proc_data) (c : list Z) :
  nonneg_ids l -> idle_last (update_cpus_state l c).
Proof.
  intros Hl. rewrite update_cpus_state_nonneg by exact Hl.
  eexists _, _. split; [reflexivity |].
  eapply Permutation_Forall; [symmetry; apply stable_sort_perm |].
  now apply nonneg_ids_map, nonneg_ids_firstn.
Qed.

(** After slot fill and execution the processes in the slots are the front
    of the ready list. *)
Lemma run_slots_running_in_front (l : list proc_data) (c : list Z) :
  NoDup (ids l) -> nonneg_ids l ->
  let c' := update_cpus_state l c in
  exists run rest,
    run_slots (occupied c') l = run ++ rest
    /\ Forall (fun p => In (id p) c') run
    /\ Forall (fun p => ~ In (id p) c') rest.
Proof.
  intros Hnd Hpos c'.
  set (n := length c).
  assert (Hsplit : l = firstn n l ++ skipn n l)
    by (symmetry; apply firstn_skipn).
  assert (Hdis : forall q, In q (skipn n l) -> ~ In (id q) c').
  { intros q Hq Hin.
    assert (Hocc : In (id q) (occupied c')).
    { apply occupied_In. split; [exact Hin |].
      assert (0 <= id q); [| lia].
      apply (nonneg_ids_In l); [exact Hpos |].
      apply In_ids. eapply In_skipn_list. exact Hq. }
    apply occupied_update_In in Hocc. destruct Hocc as [Hocc _].
    rewrite Hsplit, ids_app in Hnd. apply NoDup_app_inv in Hnd.
    destruct Hnd as (_ & _ & Hnd). apply (Hnd (id q) Hocc).
    now apply In_ids. }
  exists (run_slots (occupied c') (firstn n l)), (skipn n l).
  split; [| split].
  - rewrite Hsplit at 1. rewrite run_slots_app. f_equal.
    apply run_slots_absent. intros q Hq Hin.
    apply (Hdis q Hq). apply occupied_In in Hin. tauto.
  - apply Forall_forall. intros q Hq.
    apply run_slots_In_id in Hq.
    assert (Hocc : In (id q) (occupied c')).
    { apply occupied_update_In. split; [exact Hq |].
      assert (0 <= id q); [| lia].
      apply (nonneg_ids_In (firstn n l)); [| exact Hq].
      now apply nonneg_ids_firstn. }
    apply occupied_In in Hocc. tauto.
  - apply Forall_forall. exact Hdis.
Qed.

Lemma nonpreemptive_step (method rr_time : Z) (st st' : state) :
  method = 1 \/ method = 6 ->
  NoDup (ids (known st)) -> nonneg_ids (known st) ->
  idle_last (cpus_state st) -> running_in_front st ->
  tick method rr_time st = Ok st' ->
  (forall p, In p (proc_list st) -> In (id p) (cpus_state st) ->
             In (id p) (cpus_state st'))
  /\ idle_last (cpus_state st')
  /\ running_in_front st'.
Proof.
  intros Hm Hnd Hpos Hidle (run & rest & Hpl & Hrun & Hrest) Htick.
  destruct (tick_inv _ _ _ _ Hnd Htick) as (l & Hs & Hperm & Hc & Hl' & _).
  destruct (read_input_proc_list st) as (new & Hnew).
  destruct (nonpreemptive_schedule_inv _ _ _ _ _ _ Hm Hs) as (k & Hk & _ & Hfirst).
  pose proof (NoDup_ids_known st Hnd) as Hndpl.
  assert (Hpospl : nonneg_ids (proc_list (read_input st))).
  { rewrite <- known_read_input in Hpos. unfold known, nonneg_ids in Hpos.
    apply Forall_app in Hpos. tauto. }
  assert (Hndl : NoDup (ids l)) by now apply (NoDup_ids_perm _ _ Hperm).
  assert (Hposl : nonneg_ids l) by now apply (nonneg_ids_perm _ _ Hperm).
  rewrite Hnew, Hpl, <- app_assoc in *.
  rewrite Forall_forall in Hrun, Hrest.
  assert (Hcover : (length run <= k)%nat).
  { destruct (skip_executing_covers _ _ _ _ Hk) as [-> | Hcov].
    - rewrite length_app. lia.
    - rewrite filter_app, length_app in Hcov.
      rewrite (filter_all _ run) in Hcov; [simpl in Hcov; lia |].
      intros p Hp. apply in_slots_true.
      apply idle_last_active; [exact Hidle | now apply Hrun |].
      apply (nonneg_ids_In _ _ Hpospl), In_ids, in_or_app. now left. }
  assert (Hfront : firstn (length run) l = run).
  { rewrite (Hfirst _ Hcover). now apply firstn_exact_app. }
  assert (Hlen : (length run <= length (cpus_state st))%nat).
  { replace (length run) with (length (ids run)) by apply length_map.
    apply NoDup_incl_length.
    - rewrite ids_app in Hndpl. now apply NoDup_app_remove_r in Hndpl.
    - intros x Hx. apply in_map_iff in Hx. destruct Hx as (p & <- & Hp).
      now apply Hrun. }
  split; [| split].
  - intros p Hp Hslot.
    apply in_app_or in Hp. destruct Hp as [Hp | Hp];
      [| exfalso; now apply (Hrest p Hp)].
    assert (Hocc : In (id p) (occupied (cpus_state st'))).
    { rewrite Hc. apply occupied_update_In. split.
      - apply In_ids. apply (firstn_le_incl _ _ l Hlen). now rewrite Hfront.
      - assert (0 <= id p); [| lia].
        apply (nonneg_ids_In _ _ Hpospl), In_ids, in_or_app. now left. }
    apply occupied_In in Hocc. tauto.
  - rewrite Hc. now apply update_cpus_state_idle_last.
  - unfold running_in_front. rewrite Hl', Hc.
    now apply run_slots_running_in_front.
Qed.

Lemma run_once_nonneg (p : proc_data) :
  0 <= id p -> Forall (fun q => 0 <= id q) (run_once p).
Proof. apply (run_once_id_property (fun x => 0 <= x)). Qed.

Lemma nonpreemptive_invariant (method rr_time : Z) (cpu_count : nat)
  (input : list line) (st : state) :
  method = 1 \/ method = 6 ->
  NoDup (ids (arrivals input)) -> nonneg_ids (arrivals input) ->
  reachable method rr_time cpu_count input st ->
  NoDup (ids (known st)) /\ nonneg_ids (known st)
  /\ idle_last (cpus_state st) /\ running_in_front st.
Proof.
  intros Hm Hnd Hpos. induction 1 as [| st st' Hst IH _ Htick].
  - split; [exact Hnd |]. split; [exact Hpos |]. split.
    + exists (repeat 0 cpu_count), O. simpl. rewrite app_nil_r.
      split; [reflexivity |]. apply Forall_forall.
      intros x Hx. apply repeat_spec in Hx. lia.
    + exists [], []. repeat split; constructor.
  - destruct IH as (Hnd' & Hpos' & Hidle & Hfront).
    destruct (nonpreemptive_step _ _ _ _ Hm Hnd' Hpos' Hidle Hfront Htick)
      as (_ & Hidle' & Hfront').
    split; [eapply tick_NoDup_known; eassumption |].
    split; [| split; assumption].
    apply (tick_Forall _ method rr_time st st' run_once_nonneg Hnd' Hpos' Htick).
Qed.

(** A process that holds a slot and is still in the ready list holds a slot
    after the next iteration, which takes place. *)
Lemma nonpreemptive_next_tick (method rr_time : Z) (cpu_count : nat)
  (input : list line) (st : state) (i : Z) :
  method = 1 \/ method = 6 ->
  NoDup (ids (arrivals input)) ->
  nonneg_ids (arrivals input) ->
  reachable method rr_time cpu_count input st ->
  In i (ids (proc_list st)) ->
  In i (cpus_state st) ->
  loop_cond st = true
  /\ exists st', tick method rr_time st = Ok st'
                 /\ reachable method rr_time cpu_count input st'
                 /\ In i (cpus_state st').
Proof.
  intros Hm Hnd Hpos Hst Hi Hslot.
  apply in_map_iff in Hi. destruct Hi as (p & <- & Hp).
  destruct (nonpreemptive_invariant _ _ _ _ _ Hm Hnd Hpos Hst)
    as (Hnd' & Hpos' & Hidle & Hfront).
  assert (Hid : 0 <= id p).
  { apply (nonneg_ids_In _ _ Hpos'), In_ids. unfold known.
    apply in_or_app. now left. }
  assert (Hcond : loop_cond st = true).
  { unfold loop_cond. apply orb_true_iff. right. apply negb_true_iff.
    destruct (all_cpus_sleeping (cpus_state st)) eqn:Hs; [| reflexivity].
    apply all_cpus_sleeping_occupied in Hs.
    assert (Hocc : In (id p) (occupied (cpus_state st)))
      by (apply occupied_In; split; [exact Hslot | lia]).
    rewrite Hs in Hocc. destruct Hocc. }
  split; [exact Hcond |].
  assert (Hvalid : valid_method method)
    by (unfold valid_method; destruct Hm; lia).
  assert (Hrr : method <> 3) by (destruct Hm; lia).
  destruct (tick_ok method rr_time st Hvalid Hrr Hnd') as (st' & Htick).
  exists st'. split; [exact Htick |].
  split; [eapply reach_tick; eassumption |].
  destruct (nonpreemptive_step _ _ _ _ Hm Hnd' Hpos' Hidle Hfront Htick)
    as (Hkeep & _).
  now apply Hkeep.
Qed.

(** C3, as the code has it: under SJF and under non-preemptive priority
    scheduling, in a run whose process ids are non-negative and pairwise
    distinct, a process that holds a slot after some iteration holds a slot
    after each of the following iterations, for as long as it is still in the
    ready list (its remaining time has not reached zero); those iterations
    take place, and no arrival or reordering takes the slot away. *)
Theorem nonpreemptive_keeps_slot (method rr_time : Z) (cpu_count : nat)
  (input : list line) (st : state) (i : Z) (n : nat) :
  method = 1 \/ method = 6 ->
  NoDup (ids (arrivals input)) ->
  nonneg_ids (arrivals input) ->
  reachable method rr_time cpu_count input st ->
  In i (cpus_state st) ->
  (forall k st_k, (k < n)%nat -> ticks method rr_time k st = Ok st_k ->
                  In i (ids (proc_list st_k))) ->
  exists st_n,
    ticks method rr_time n st = Ok st_n
    /\ reachable method rr_time cpu_count input st_n
    /\ In i (cpus_state st_n)
    /\ (forall k st_k, (k < n)%nat -> ticks method rr_time k st = Ok st_k ->
                       loop_cond st_k = true /\ In i (cpus_state st_k)).
Proof.
  intros Hm Hnd Hpos. revert st.
  induction n as [| n IH]; intros st Hst Hslot Hlive.
  - exists st. repeat split; try assumption; lia.
  - assert (Hi : In i (ids (proc_list st)))
      by (apply (Hlive O st); [lia | reflexivity]).
    destruct (nonpreemptive_next_tick _ _ _ _ _ _ Hm Hnd Hpos Hst Hi Hslot)
      as (Hcond & st1 & Htick & Hst1 & Hslot1).
    destruct (IH st1 Hst1 Hslot1) as (st_n & Hrun & Hst_n & Hslot_n & Hall).
    { intros k st_k Hk Hticks. apply (Hlive (S k) st_k); [lia |].
      simpl. now rewrite Htick. }
    exists st_n. simpl. rewrite Htick. simpl.
    split; [exact Hrun |]. split; [exact Hst_n |]. split; [exact Hslot_n |].
    intros [| k] st_k Hk Hticks.
    + injection Hticks as <-. now split.
    + simpl in Hticks. rewrite Htick in Hticks.
      apply (Hall k st_k); [lia | exact Hticks].
Qed.

Lemma nonpreemptive_keeps_slot_witness :
  exists st_n,
    ticks 1 1 2 (mk_state [mk_proc 5 0 5 4] [5; -1] 1 true
                   [Group 1 [(7, 0, 1); (8, 0, 1)]; Blank] [(0, [5; -1])])
    = Ok st_n
    /\ In 5 (cpus_state st_n).
Proof.
  destruct (nonpreemptive_keeps_slot 1 1 2
              [Group 0 [(5, 0, 5)]; Group 1 [(7, 0, 1); (8, 0, 1)]; Blank]
              (mk_state [mk_proc 5 0 5 4] [5; -1] 1 true
                 [Group 1 [(7, 0, 1); (8, 0, 1)]; Blank] [(0, [5; -1])])
              5 2)
    as (st_n & Hrun & _ & Hslot & _).
  - now left.
  - unfold ids. simpl. repeat constructor; simpl; intuition discriminate.
  - unfold nonneg_ids. simpl. repeat constructor; simpl; lia.
  - eapply reach_tick; [apply reach_initial | reflexivity | reflexivity].
  - now left.
  - intros [| [| k]] st_k Hk Hticks; [| | lia].
    + injection Hticks as <-. now left.
    + injection Hticks as <-. now left.
  - exists st_n. split; assumption.
Defined.

(** C3 fails for a negative id: under SJF with two CPUs, process -5 holds a
    slot in the first tick, behind the idle slot; the loop of [sjf] stops at
    the idle slot, so process -5, with four ticks left, is sorted with the
    arrivals 7 and 8 and loses its slot to them in the second tick. *)
Lemma negative_id_loses_slot :
  let input := [Group 0 [(-5, 0, 5)]; Group 1 [(7, 0, 1); (8, 0, 1)]; Blank] in
  let st1 := mk_state [mk_proc (-5) 0 5 4] [-1; -5] 1 true
               [Group 1 [(7, 0, 1); (8, 0, 1)]; Blank] [(0, [-1; -5])] in
  let st2 := mk_state [mk_proc (-5) 0 5 4] [7; 8] 2 true [Blank]
               [(0, [-1; -5]); (1, [7; 8])] in
  tick 1 1 (initial 2 input) = Ok st1
  /\ In (mk_proc (-5) 0 5 4) (proc_list st1)
  /\ In (-5) (cpus_state st1)
  /\ loop_cond st1 = true
  /\ tick 1 1 st1 = Ok st2
  /\ ~ In (-5) (cpus_state st2).
Proof.
  repeat split; [now left | simpl; tauto |].
  simpl. intuition discriminate.
Qed.

(** ** The model on small runs *)

(** Round robin, one CPU, time slice 2.  In the first iteration the slot
    still holds the 0 it was created with; no process has the id 0, and the
    search of [rr] reads past the end of the ready list. *)
Example round_robin_run :
  main 3 1 2 6 [Group 0 [(1, 0, 3); (2, 0, 2)]; Blank] = Abort OutOfRange [].
Proof. reflexivity. Qed.

(** With a process 0 the first iteration finds its slot.  Process 0 is sent
    to the back after two ticks, process 2 runs its two ticks and completes;
    in the next iteration the slot still holds the id 2, which no process has
    any more. *)
Example round_robin_run_from_zero :
  main 3 1 2 6 [Group 0 [(0, 0, 3); (2, 0, 2)]; Blank]
  = Abort OutOfRange [(0, [0]); (1, [0]); (2, [2]); (3, [2])].
Proof. reflexivity. Qed.

(** SRTF, one CPU: process 2 arrives at time 1 with one tick to run and
    preempts process 1, which has four ticks left. *)
Example srtf_run :
  main 2 1 1 7 [Group 0 [(1, 0, 5)]; Group 1 [(2, 0, 1)]; Blank]
  = Exit (mk_state [] [-1] 7 false []
            [(0, [1]); (1, [2]); (2, [1]); (3, [1]); (4, [1]); (5, [1]);
             (6, [-1])]).
Proof. reflexivity. Qed.

(** SJF, two CPUs: the running processes 3 and 4 keep their slots when the
    shorter process 5 arrives. *)
Example sjf_run :
  main 1 2 1 6 [Group 0 [(3, 0, 3); (4, 0, 2)]; Group 1 [(5, 0, 1)]; Blank]
  = Exit (mk_state [] [-1; -1] 4 false []
            [(0, [3; 4]); (1, [3; 4]); (2, [3; 5]); (3, [-1; -1])]).
Proof. reflexivity. Qed.

(** An unknown method is a fault at the first iteration. *)
Example invalid_method_run :
  main 7 1 1 3 [Group 0 [(1, 0, 1)]; Blank] = Abort InvalidMethod [].
Proof. reflexivity. Qed.

(* ================================================================= *)
(** * Further properties of the code *)

(** ** What every policy does *)

(** X1: a policy that returns hands back the same processes, unchanged and
    each exactly once, in some order; the slot vector it returns has the
    length of the one it received and is the slot fill of the returned
    list. *)
Theorem policies_permute_ready_list (method rr_time : Z)
  (l l' : list proc_data) (c c' : list Z) :
  schedule method rr_time l c = Ok (l', c') ->
  Permutation l' l
  /\ length l' = length l
  /\ c' = update_cpus_state l' c
  /\ length c' = length c.
Proof.
  intros Hs. destruct (schedule_inv _ _ _ _ _ _ Hs) as [Hperm ->].
  split; [exact Hperm |].
  split; [now apply Permutation_length |].
  split; [reflexivity | apply update_cpus_state_length].
Qed.

Lemma policies_permute_ready_list_witness :
  Permutation [mk_proc 2 0 1 1; mk_proc 1 0 5 5]
    [mk_proc 1 0 5 5; mk_proc 2 0 1 1].
Proof.
  apply (policies_permute_ready_list 2 1
           [mk_proc 1 0 5 5; mk_proc 2 0 1 1]
           [mk_proc 2 0 1 1; mk_proc 1 0 5 5] [0] [2]).
  reflexivity.
Defined.

Lemma main_loop_never_faults (method rr_time : Z) (cpu_count : nat)
  (input : list line) (fuel : nat) (st : state) :
  valid_method method -> method <> 3 ->
  NoDup (ids (arrivals input)) ->
  reachable method rr_time cpu_count input st ->
  forall f out, main_loop method rr_time fuel st <> Abort f out.
Proof.
  intros Hm Hrr Hin. revert st.
  induction fuel as [| fuel IH]; intros st Hst f out; simpl.
  - destruct (loop_cond st); discriminate.
  - destruct (loop_cond st) eqn:Hcond; [| discriminate].
    pose proof (reachable_NoDup _ _ _ _ _ Hin Hst) as Hnd.
    destruct (tick_ok method rr_time st Hm Hrr Hnd) as (st' & Htick).
    rewrite Htick. apply IH. eapply reach_tick; eassumption.
Qed.

(** X2: with a valid method other than round robin and an input whose
    process ids are pairwise distinct, a run never faults: no iterator leaves
    the ready list, in the skip loops of the non-preemptive policies or in
    the accounting loop. *)
Theorem run_never_faults (method rr_time : Z) (cpu_count : nat)
  (input : list line) (fuel : nat) :
  valid_method method ->
  method <> 3 ->
  NoDup (ids (arrivals input)) ->
  forall f out, main method cpu_count rr_time fuel input <> Abort f out.
Proof.
  intros Hm Hrr Hin. unfold main.
  apply (main_loop_never_faults method rr_time cpu_count input); try assumption.
  apply reach_initial.
Qed.

Lemma run_never_faults_witness :
  main 1 2 1 3 [Group 0 [(3, 0, 3); (4, 0, 2)]; Group 1 [(5, 0, 1)]; Blank]
  <> Abort OutOfRange [].
Proof.
  apply (run_never_faults 1 1 2
           [Group 0 [(3, 0, 3); (4, 0, 2)]; Group 1 [(5, 0, 1)]; Blank] 3).
  - unfold valid_method. lia.
  - discriminate.
  - unfold ids. simpl. repeat constructor; simpl; intuition discriminate.
Defined.

(** X3: a method outside 0..6 raises the exception in the first iteration,
    whatever the input, before anything is printed. *)
Theorem invalid_method_aborts (method rr_time : Z) (cpu_count : nat)
  (input : list line) (fuel : nat) :
  method < 0 \/ 6 < method ->
  main method cpu_count rr_time (S fuel) input = Abort InvalidMethod [].
Proof.
  intros Hm. unfold main. simpl main_loop.
  change (loop_cond (initial cpu_count input)) with true. cbv iota.
  unfold tick.
  destruct (schedule_cases method rr_time
              (proc_list (read_input (initial cpu_count input)))
              (cpus_state (read_input (initial cpu_count input))))
    as [[H _] | [[H _] | [[H _] | [[H _] | [[H _] | [[H _] | [[H _] | [_ ->]]]]]]]];
    try lia.
  reflexivity.
Qed.

Lemma invalid_method_aborts_witness :
  main 9 2 1 1 [Group 0 [(1, 0, 1)]; Blank] = Abort InvalidMethod [].
Proof.
  apply (invalid_method_aborts 9 1 2 [Group 0 [(1, 0, 1)]; Blank] 0). lia.
Defined.

Lemma rr_loop_nil (rr_time : Z) (c : list Z) :
  rr_loop rr_time [] c
  = match active_slots c with
    | [] => Ok []
    | _ :: _ => Err OutOfRange
    end.
Proof.
  destruct c as [| x c]; simpl; [reflexivity |].
  now destruct (x =? -1).
Qed.

Lemma skip_executing_nil (c : list Z) : skip_executing [] 0 c = Ok O.
Proof. destruct c; reflexivity. Qed.

Lemma update_cpus_state_nil (c : list Z) :
  update_cpus_state [] c = repeat (-1) (length c).
Proof. unfold update_cpus_state. now rewrite fill_slots_nil, sort_idle. Qed.

Lemma schedule_nil (method rr_time : Z) (c : list Z) :
  valid_method method ->
  method <> 3 \/ active_slots c = [] ->
  schedule method rr_time [] c = Ok ([], repeat (-1) (length c)).
Proof.
  intros Hm Hc.
  destruct (schedule_cases method rr_time [] c)
    as [[_ ->] | [[_ ->] | [[_ ->] | [[H3 ->] | [[_ ->] | [[_ ->] | [[_ ->] | [H _]]]]]]]];
    unfold fcfs, sjf, srtf, rr, prio_fcfs, prio_srtf, prio_fcfs_no_preemption;
    rewrite ?skip_executing_nil, ?rr_loop_nil; simpl;
    rewrite ?update_cpus_state_nil; try reflexivity.
  - destruct Hc as [Hc | ->]; [contradiction |].
    simpl. now rewrite update_cpus_state_nil.
  - unfold valid_method in Hm. lia.
Qed.

Lemma schedule_nil_rr (rr_time : Z) (c : list Z) :
  active_slots c <> [] -> schedule 3 rr_time [] c = Err OutOfRange.
Proof.
  intros Hc. change (schedule 3 rr_time [] c) with (rr [] c rr_time).
  unfold rr. rewrite rr_loop_nil.
  destruct (active_slots c); [contradiction | reflexivity].
Qed.

(** X4: on an empty ready list every policy other than round robin returns
    the empty list and puts every CPU to sleep, whatever the slots held
    before.  Round robin does so when no slot stands before the first idle
    one; when one does, its search starts at the end of the empty list and
    reads past it. *)
Theorem empty_ready_list_all_idle (method rr_time : Z) (c : list Z) :
  valid_method method ->
  (method <> 3 \/ active_slots c = [] ->
   schedule method rr_time [] c = Ok ([], repeat (-1) (length c)))
  /\ (method = 3 -> active_slots c <> [] ->
      schedule method rr_time [] c = Err OutOfRange)
  /\ all_cpus_sleeping (repeat (-1) (length c)) = true.
Proof.
  intros Hm. split; [| split].
  - now apply schedule_nil.
  - intros ->. apply schedule_nil_rr.
  - apply all_cpus_sleeping_occupied, occupied_idle.
Qed.

Lemma empty_ready_list_all_idle_witness :
  schedule 1 0 [] [4; 7; -1] = Ok ([], repeat (-1) (length [4; 7; -1])).
Proof.
  apply (empty_ready_list_all_idle 1 0 [4; 7; -1]).
  - unfold valid_method. lia.
  - left. discriminate.
Defined.

Lemma occupied_all (xs : list Z) :
  Forall (fun x => x <> -1) xs -> occupied xs = xs.
Proof.
  intros H. apply filter_all. rewrite Forall_forall in H.
  intros x Hx. apply negb_true_iff, Z.eqb_neq. now apply H.
Qed.

Lemma occupied_update_length (l : list proc_data) (c : list Z) :
  Forall (fun p => id p <> -1) l ->
  length (occupied (update_cpus_state l c)) = Nat.min (length c) (length l).
Proof.
  intros Hl. rewrite (Permutation_length (occupied_update l c)).
  rewrite occupied_all.
  - unfold ids. now rewrite length_map, length_firstn.
  - unfold ids. rewrite Forall_map. rewrite Forall_forall in *.
    intros p Hp. apply Hl. eapply In_firstn_list. exact Hp.
Qed.

(** X5: no CPU sleeps while a process waits.  When no process is named -1,
    the number of occupied slots after any policy is the smaller of the
    number of CPUs and the number of ready processes; so every CPU sleeps
    only if there is no process or no CPU, and with at least as many CPUs as
    processes every process gets a slot. *)
Theorem policies_are_work_conserving (method rr_time : Z)
  (l l' : list proc_data) (c c' : list Z) :
  Forall (fun p => id p <> -1) l ->
  schedule method rr_time l c = Ok (l', c') ->
  length (occupied c') = Nat.min (length c) (length l)
  /\ (all_cpus_sleeping c' = true <-> l = [] \/ c = [])
  /\ ((length l <= length c)%nat -> forall p, In p l -> In (id p) c').
Proof.
  intros Hl Hs. destruct (schedule_inv _ _ _ _ _ _ Hs) as [Hperm ->].
  assert (Hl' : Forall (fun p => id p <> -1) l').
  { eapply Permutation_Forall; [symmetry; exact Hperm | exact Hl]. }
  assert (Hlen : length (occupied (update_cpus_state l' c))
                 = Nat.min (length c) (length l)).
  { rewrite (occupied_update_length l' c Hl').
    now rewrite (Permutation_length Hperm). }
  split; [exact Hlen |]. split.
  - rewrite all_cpus_sleeping_occupied. split.
    + intros Hocc. rewrite Hocc in Hlen. simpl in Hlen.
      destruct l; [now left |]. destruct c; [now right |].
      simpl in Hlen. discriminate.
    + intros Hempty.
      destruct (occupied (update_cpus_state l' c)); [reflexivity |].
      simpl in Hlen. destruct Hempty as [-> | ->]; simpl in Hlen;
        [rewrite Nat.min_0_r in Hlen |]; discriminate.
  - intros Hfit p Hp.
    assert (Hocc : In (id p) (occupied (update_cpus_state l' c))).
    { apply occupied_update_In. split.
      - rewrite firstn_all2 by (rewrite (Permutation_length Hperm); exact Hfit).
        apply In_ids. eapply Permutation_in; [symmetry; exact Hperm | exact Hp].
      - rewrite Forall_forall in Hl. now apply Hl. }
    apply occupied_In in Hocc. tauto.
Qed.

Lemma policies_are_work_conserving_witness :
  length (occupied [2; 8]) = Nat.min (length [0; 0]) (length
    [mk_proc 3 0 4 4; mk_proc 2 0 1 1; mk_proc 8 0 2 2]).
Proof.
  apply (policies_are_work_conserving 2 1
           [mk_proc 3 0 4 4; mk_proc 2 0 1 1; mk_proc 8 0 2 2]
           [mk_proc 2 0 1 1; mk_proc 8 0 2 2; mk_proc 3 0 4 4]
           [0; 0] [2; 8]).
  - repeat constructor; simpl; discriminate.
  - reflexivity.
Defined.

(** ** The policies that sort the whole ready list *)

Lemma NoDup_ids_inj (l : list proc_data) (p q : proc_data) :
  NoDup (ids l) -> In p l -> In q l -> id p = id q -> p = q.
Proof.
  induction l as [| x l IH]; [intros _ [] |].
  simpl. intros Hnd Hp Hq Heq.
  apply NoDup_cons_iff in Hnd. destruct Hnd as [Hx Hnd].
  destruct Hp as [-> | Hp]; destruct Hq as [-> | Hq].
  - reflexivity.
  - exfalso. apply Hx. rewrite Heq. now apply In_ids.
  - exfalso. apply Hx. rewrite <- Heq. now apply In_ids.
  - now apply IH.
Qed.

Lemma StronglySorted_app_inv {A : Type} (R : A -> A -> Prop) (a b : list A) :
  StronglySorted R (a ++ b) ->
  forall x y, In x a -> In y b -> R x y.
Proof.
  induction a as [| z a IH]; [intros _ x y [] |].
  simpl. intros Hs x y Hx Hy.
  apply StronglySorted_inv in Hs. destruct Hs as [Hs Hz].
  destruct Hx as [-> | Hx].
  - rewrite Forall_forall in Hz. apply Hz, in_or_app. now right.
  - now apply IH.
Qed.

(** In a sorted ready list with distinct ids, a process that holds a slot
    after slot fill stands before every process that holds none. *)
Lemma running_precedes_waiting (comp : proc_data -> proc_data -> bool)
  (l : list proc_data) (c : list Z) (p q : proc_data) :
  StronglySorted (precedes comp) l -> NoDup (ids l) ->
  In p l -> In q l ->
  In (id p) (update_cpus_state l c) -> id p <> -1 ->
  ~ In (id q) (update_cpus_state l c) ->
  precedes comp p q.
Proof.
  intros Hs Hnd Hp Hq Hrun Hid Hwait.
  set (n := length c).
  assert (Hpn : In p (firstn n l)).
  { assert (Hocc : In (id p) (occupied (update_cpus_state l c)))
      by (apply occupied_In; now split).
    apply occupied_update_In in Hocc. destruct Hocc as [Hocc _].
    apply in_map_iff in Hocc. destruct Hocc as (p0 & Heq & Hp0).
    replace p with p0; [exact Hp0 |].
    apply (NoDup_ids_inj l); try assumption.
    eapply In_firstn_list. exact Hp0. }
  assert (Hqn : In q (skipn n l)).
  { rewrite <- (firstn_skipn n l) in Hq. apply in_app_or in Hq.
    destruct Hq as [Hq | Hq]; [exfalso | exact Hq].
    apply Hwait. eapply Permutation_in.
    - symmetry. apply update_cpus_state_perm.
    - rewrite fill_slots_eq. apply in_or_app. left. now apply in_map. }
  rewrite <- (firstn_skipn n l) in Hs.
  exact (StronglySorted_app_inv _ _ _ Hs p q Hpn Hqn).
Qed.

Lemma tie_compare_remaining_time (z a : proc_data) :
  tie compare_remaining_time z a = (remaining_time a =? remaining_time z).
Proof. comparator. Qed.

(** X6: under SRTF the returned ready list is sorted by remaining time;
    processes with the same remaining time keep their order; and, the ids
    being distinct, no process that holds a slot has more remaining time
    than a process left waiting. *)
Theorem srtf_runs_least_remaining (l l' : list proc_data) (c c' : list Z) :
  NoDup (ids l) ->
  srtf l c = Ok (l', c') ->
  StronglySorted (fun a b => remaining_time a <= remaining_time b) l'
  /\ (forall z, filter (fun a => remaining_time a =? remaining_time z) l'
                = filter (fun a => remaining_time a =? remaining_time z) l)
  /\ (forall p q, In p l -> In q l ->
                  In (id p) c' -> id p <> -1 -> ~ In (id q) c' ->
                  remaining_time p <= remaining_time q).
Proof.
  intros Hnd Hs. unfold srtf in Hs. injection Hs as <- <-.
  pose proof (stable_sort_sorted _ compare_remaining_time_asym
                compare_remaining_time_ntrans l) as Hsorted.
  split; [| split].
  - eapply StronglySorted_weaken with (P := fun _ => True);
      [| apply Forall_forall; auto | exact Hsorted].
    intros a b _ _ Hab. unfold precedes in Hab. comparator.
  - intros z.
    rewrite <- !(filter_ext _ _ (tie_compare_remaining_time z)).
    apply (stable_sort_stable _ compare_remaining_time_ntrans).
  - intros p q Hp Hq Hrun Hid Hwait.
    assert (H : precedes compare_remaining_time p q).
    { apply (running_precedes_waiting _ (stable_sort compare_remaining_time l) c);
        try assumption.
      - eapply NoDup_ids_perm; [apply stable_sort_perm | exact Hnd].
      - eapply Permutation_in; [symmetry; apply stable_sort_perm | exact Hp].
      - eapply Permutation_in; [symmetry; apply stable_sort_perm | exact Hq]. }
    unfold precedes in H. comparator.
Qed.

Lemma srtf_runs_least_remaining_witness :
  StronglySorted (fun a b => remaining_time a <= remaining_time b)
    [mk_proc 2 0 1 1; mk_proc 1 0 5 4; mk_proc 3 0 4 4].
Proof.
  apply (srtf_runs_least_remaining
           [mk_proc 1 0 5 4; mk_proc 2 0 1 1; mk_proc 3 0 4 4]
           [mk_proc 2 0 1 1; mk_proc 1 0 5 4; mk_proc 3 0 4 4] [1] [2]).
  - unfold ids. simpl. repeat constructor; simpl; intuition discriminate.
  - reflexivity.
Defined.

Lemma tie_compare_priority (z a : proc_data) :
  tie compare_priority z a = (priority a =? priority z).
Proof. comparator. Qed.

(** X7: under preemptive priority scheduling the returned ready list is
    sorted by priority; processes of the same priority keep the order they
    had in the list; and, the ids being distinct, no process that holds a
    slot has a larger priority number than a process left waiting. *)
Theorem prio_fcfs_runs_highest_priority (l l' : list proc_data) (c c' : list Z) :
  NoDup (ids l) ->
  prio_fcfs l c = Ok (l', c') ->
  StronglySorted (fun a b => priority a <= priority b) l'
  /\ (forall z, filter (fun a => priority a =? priority z) l'
                = filter (fun a => priority a =? priority z) l)
  /\ (forall p q, In p l -> In q l ->
                  In (id p) c' -> id p <> -1 -> ~ In (id q) c' ->
                  priority p <= priority q).
Proof.
  intros Hnd Hs. unfold prio_fcfs in Hs. injection Hs as <- <-.
  pose proof (stable_sort_sorted _ compare_priority_asym compare_priority_ntrans l) as Hsorted.
  split; [| split].
  - eapply StronglySorted_weaken with (P := fun _ => True);
      [| apply Forall_forall; auto | exact Hsorted].
    intros a b _ _ Hab. unfold precedes in Hab. comparator.
  - intros z.
    rewrite <- !(filter_ext _ _ (tie_compare_priority z)).
    apply (stable_sort_stable _ compare_priority_ntrans).
  - intros p q Hp Hq Hrun Hid Hwait.
    assert (H : precedes compare_priority p q).
    { apply (running_precedes_waiting _ (stable_sort compare_priority l) c);
        try assumption.
      - eapply NoDup_ids_perm; [apply stable_sort_perm | exact Hnd].
      - eapply Permutation_in; [symmetry; apply stable_sort_perm | exact Hp].
      - eapply Permutation_in; [symmetry; apply stable_sort_perm | exact Hq]. }
    unfold precedes in H. comparator.
Qed.

Lemma prio_fcfs_runs_highest_priority_witness :
  StronglySorted (fun a b => priority a <= priority b)
    [mk_proc 2 1 1 1; mk_proc 1 3 5 4; mk_proc 3 3 4 4].
Proof.
  apply (prio_fcfs_runs_highest_priority
           [mk_proc 1 3 5 4; mk_proc 2 1 1 1; mk_proc 3 3 4 4]
           [mk_proc 2 1 1 1; mk_proc 1 3 5 4; mk_proc 3 3 4 4] [1] [2]).
  - unfold ids. simpl. repeat constructor; simpl; intuition discriminate.
  - reflexivity.
Defined.

(** X8: under priority scheduling with SRTF among equal priorities, the ids
    being distinct, a process that holds a slot has a smaller priority number
    than any process left waiting, or the same priority and no more
    remaining time. *)
Theorem prio_srtf_runs_least (l l' : list proc_data) (c c' : list Z)
  (p q : proc_data) :
  NoDup (ids l) ->
  prio_srtf l c = Ok (l', c') ->
  In p l -> In q l ->
  In (id p) c' -> id p <> -1 -> ~ In (id q) c' ->
  priority p < priority q
  \/ (priority p = priority q /\ remaining_time p <= remaining_time q).
Proof.
  intros Hnd Hs Hp Hq Hrun Hid Hwait.
  unfold prio_srtf in Hs. rewrite two_sorts_lexicographic in Hs.
  injection Hs as <- <-.
  assert (H : precedes compare_priority_then_remaining p q).
  { apply (running_precedes_waiting _
             (stable_sort compare_priority_then_remaining l) c);
      try assumption.
    - apply (stable_sort_sorted _ compare_lex_asym compare_lex_ntrans).
    - eapply NoDup_ids_perm; [apply stable_sort_perm | exact Hnd].
    - eapply Permutation_in; [symmetry; apply stable_sort_perm | exact Hp].
    - eapply Permutation_in; [symmetry; apply stable_sort_perm | exact Hq]. }
  unfold precedes in H. comparator.
Qed.

Lemma prio_srtf_runs_least_witness :
  priority (mk_proc 2 1 1 1) < priority (mk_proc 1 3 5 4)
  \/ (priority (mk_proc 2 1 1 1) = priority (mk_proc 1 3 5 4)
      /\ remaining_time (mk_proc 2 1 1 1) <= remaining_time (mk_proc 1 3 5 4)).
Proof.
  apply (prio_srtf_runs_least
           [mk_proc 1 3 5 4; mk_proc 2 1 1 1]
           [mk_proc 2 1 1 1; mk_proc 1 3 5 4] [1] [2]
           (mk_proc 2 1 1 1) (mk_proc 1 3 5 4)).
  - unfold ids. simpl. repeat constructor; simpl; intuition discriminate.
  - reflexivity.
  - simpl. tauto.
  - simpl. tauto.
  - simpl. tauto.
  - discriminate.
  - simpl. intuition discriminate.
Defined.

(** ** The policies that sort only the waiting processes *)

Lemma sort_from_skipn {A : Type} (comp : A -> A -> bool) (k : nat)
  (l : list A) :
  skipn k (sort_from comp k l) = stable_sort comp (skipn k l).
Proof.
  unfold sort_from.
  destruct (Nat.le_gt_cases (length l) k) as [Hlen | Hlen].
  - rewrite (skipn_all2 l) by exact Hlen. simpl. rewrite app_nil_r.
    apply skipn_all2. rewrite length_firstn. lia.
  - apply skipn_exact_app. rewrite length_firstn. lia.
Qed.

Lemma skip_executing_none (l : list proc_data) (c : list Z) :
  (forall p, In p l -> ~ In (id p) (active_slots c)) ->
  skip_executing l 0 c = Ok O.
Proof.
  induction c as [| x c IH]; intros Hfree; [reflexivity |].
  cbn [skip_executing].
  destruct ((0 =? length l)%nat || (x =? -1)) eqn:Hstop; [reflexivity |].
  apply orb_false_iff in Hstop. destruct Hstop as [_ Hx].
  cbn [active_slots] in Hfree. rewrite Hx in Hfree.
  cbv zeta. rewrite count_id_absent.
  - cbn [Nat.add Nat.leb]. apply IH.
    intros p Hp Hin. apply (Hfree p Hp). now right.
  - intros Hin. apply in_map_iff in Hin. destruct Hin as (p & Hid & Hp).
    apply (Hfree p Hp). left. now symmetry.
Qed.

Lemma tie_compare_exec_time (z a : proc_data) :
  tie compare_exec_time z a = (exec_time a =? exec_time z).
Proof. comparator. Qed.

(** X9: SJF keeps a prefix of the ready list as it is and sorts the rest
    stably by execution time.  The prefix is empty when no process has its
    id in a slot before the first idle one; then, the ids being distinct, no
    process that receives a slot has a longer execution time than a process
    left waiting. *)
Theorem sjf_sorts_waiting (l l' : list proc_data) (c c' : list Z) :
  sjf l c = Ok (l', c') ->
  exists k,
    firstn k l' = firstn k l
    /\ Permutation (skipn k l') (skipn k l)
    /\ StronglySorted (fun a b => exec_time a <= exec_time b) (skipn k l')
    /\ (forall z, filter (fun a => exec_time a =? exec_time z) (skipn k l')
                  = filter (fun a => exec_time a =? exec_time z) (skipn k l))
    /\ ((forall p, In p l -> ~ In (id p) (active_slots c)) -> k = O)
    /\ ((forall p, In p l -> ~ In (id p) (active_slots c)) ->
        NoDup (ids l) ->
        forall p q, In p l -> In q l ->
                    In (id p) c' -> id p <> -1 -> ~ In (id q) c' ->
                    exec_time p <= exec_time q).
Proof.
  unfold sjf. intros Hs.
  apply bind_Ok in Hs. destruct Hs as (k & Hk & [= <- <-]).
  pose proof (stable_sort_sorted _ compare_exec_time_asym compare_exec_time_ntrans (skipn k l))
    as Hsorted.
  assert (Hzero : (forall p, In p l -> ~ In (id p) (active_slots c)) -> k = O).
  { intros Hfree. rewrite (skip_executing_none l c Hfree) in Hk.
    now injection Hk. }
  exists k. rewrite sort_from_skipn.
  split; [now apply sort_from_firstn |].
  split; [apply stable_sort_perm |].
  split; [| split; [| split; [exact Hzero |]]].
  - eapply StronglySorted_weaken with (P := fun _ => True);
      [| apply Forall_forall; auto | exact Hsorted].
    intros a b _ _ Hab. unfold precedes in Hab. comparator.
  - intros z. rewrite <- !(filter_ext _ _ (tie_compare_exec_time z)).
    apply (stable_sort_stable _ compare_exec_time_ntrans).
  - intros Hfree Hnd p q Hp Hq Hrun Hid Hwait.
    rewrite (Hzero Hfree) in *. unfold sort_from in *. simpl in *.
    assert (H : precedes compare_exec_time p q).
    { apply (running_precedes_waiting _ (stable_sort compare_exec_time l) c);
        try assumption.
      - eapply NoDup_ids_perm; [apply stable_sort_perm | exact Hnd].
      - eapply Permutation_in; [symmetry; apply stable_sort_perm | exact Hp].
      - eapply Permutation_in; [symmetry; apply stable_sort_perm | exact Hq]. }
    unfold precedes in H. comparator.
Qed.

Lemma sjf_sorts_waiting_witness :
  exists k,
    firstn k [mk_proc 3 2 3 2; mk_proc 5 0 1 1; mk_proc 4 1 2 2]
    = firstn k [mk_proc 3 2 3 2; mk_proc 4 1 2 2; mk_proc 5 0 1 1].
Proof.
  destruct (sjf_sorts_waiting
              [mk_proc 3 2 3 2; mk_proc 4 1 2 2; mk_proc 5 0 1 1]
              [mk_proc 3 2 3 2; mk_proc 5 0 1 1; mk_proc 4 1 2 2]
              [3; -1] [3; 5]) as (k & Hk & _).
  - reflexivity.
  - now exists k.
Defined.

(** X10: non-preemptive priority scheduling keeps a prefix of the ready list
    as it is and sorts the rest stably by priority.  The prefix is empty when
    no process has its id in a slot before the first idle one; then, the ids
    being distinct, no process that receives a slot has a larger priority
    number than a process left waiting. *)
Theorem prio_fcfs_no_preemption_sorts_waiting (l l' : list proc_data) (c c' : list Z) :
  prio_fcfs_no_preemption l c = Ok (l', c') ->
  exists k,
    firstn k l' = firstn k l
    /\ Permutation (skipn k l') (skipn k l)
    /\ StronglySorted (fun a b => priority a <= priority b) (skipn k l')
    /\ (forall z, filter (fun a => priority a =? priority z) (skipn k l')
                  = filter (fun a => priority a =? priority z) (skipn k l))
    /\ ((forall p, In p l -> ~ In (id p) (active_slots c)) -> k = O)
    /\ ((forall p, In p l -> ~ In (id p) (active_slots c)) ->
        NoDup (ids l) ->
        forall p q, In p l -> In q l ->
                    In (id p) c' -> id p <> -1 -> ~ In (id q) c' ->
                    priority p <= priority q).
Proof.
  unfold prio_fcfs_no_preemption. intros Hs.
  apply bind_Ok in Hs. destruct Hs as (k & Hk & [= <- <-]).
  pose proof (stable_sort_sorted _ compare_priority_asym compare_priority_ntrans (skipn k l))
    as Hsorted.
  assert (Hzero : (forall p, In p l -> ~ In (id p) (active_slots c)) -> k = O).
  { intros Hfree. rewrite (skip_executing_none l c Hfree) in Hk.
    now injection Hk. }
  exists k. rewrite sort_from_skipn.
  split; [now apply sort_from_firstn |].
  split; [apply stable_sort_perm |].
  split; [| split; [| split; [exact Hzero |]]].
  - eapply StronglySorted_weaken with (P := fun _ => True);
      [| apply Forall_forall; auto | exact Hsorted].
    intros a b _ _ Hab. unfold precedes in Hab. comparator.
  - intros z. rewrite <- !(filter_ext _ _ (tie_compare_priority z)).
    apply (stable_sort_stable _ compare_priority_ntrans).
  - intros Hfree Hnd p q Hp Hq Hrun Hid Hwait.
    rewrite (Hzero Hfree) in *. unfold sort_from in *. simpl in *.
    assert (H : precedes compare_priority p q).
    { apply (running_precedes_waiting _ (stable_sort compare_priority l) c);
        try assumption.
      - eapply NoDup_ids_perm; [apply stable_sort_perm | exact Hnd].
      - eapply Permutation_in; [symmetry; apply stable_sort_perm | exact Hp].
      - eapply Permutation_in; [symmetry; apply stable_sort_perm | exact Hq]. }
    unfold precedes in H. comparator.
Qed.

Lemma prio_fcfs_no_preemption_sorts_waiting_witness :
  exists k,
    firstn k [mk_proc 3 2 3 2; mk_proc 5 0 1 1; mk_proc 4 1 2 2]
    = firstn k [mk_proc 3 2 3 2; mk_proc 4 1 2 2; mk_proc 5 0 1 1].
Proof.
  destruct (prio_fcfs_no_preemption_sorts_waiting
              [mk_proc 3 2 3 2; mk_proc 4 1 2 2; mk_proc 5 0 1 1]
              [mk_proc 3 2 3 2; mk_proc 5 0 1 1; mk_proc 4 1 2 2]
              [3; -1] [3; 5]) as (k & Hk & _).
  - reflexivity.
  - now exists k.
Defined.

(** ** Slot fill for arbitrary ids *)

(** X11: whatever the ids, slot fill returns the filled slots rearranged so
    that the non-negative values come first in ascending order and the
    negative ones, the idle value -1 among them, follow in descending
    order. *)
Theorem update_cpus_state_order (l : list proc_data) (c : list Z) :
  Permutation (update_cpus_state l c) (fill_slots l c)
  /\ StronglySorted slot_order (update_cpus_state l c).
Proof.
  split; [apply update_cpus_state_perm |].
  unfold update_cpus_state.
  eapply StronglySorted_weaken with (P := fun _ => True);
    [| apply Forall_forall; auto
     | apply (stable_sort_sorted _ cpu_order_asym cpu_order_ntrans)].
  intros a b _ _ Hab. unfold precedes in Hab. unfold slot_order.
  comparator.
Qed.

(** ** Execution accounting *)

(** X12: the search of the accounting loop leaves the ready list exactly
    when the slot holds an id other than -1 that no process of the list
    has; an idle slot never faults. *)
Theorem accounting_faults_iff_absent (l : list proc_data) (c : Z) :
  (execute_slot l c = Err OutOfRange <-> c <> -1 /\ ~ In c (ids l))
  /\ (forall f, execute_slot l c = Err f -> f = OutOfRange)
  /\ execute_slot l (-1) = Ok l.
Proof.
  unfold execute_slot. split; [| split; [| reflexivity]].
  - destruct (Z.eqb_spec c (-1)) as [Hc | Hc].
    + split; [discriminate | tauto].
    + destruct (split_at_id c l) as [[[a p] b] |] eqn:Hsplit.
      * split.
        -- destruct (_ =? 0); discriminate.
        -- intros [_ Habs]. apply split_at_id_None in Habs. congruence.
      * split; [| reflexivity]. intros _. split; [exact Hc |].
        now apply split_at_id_None.
  - intros f. destruct (c =? -1); [discriminate |].
    destruct (split_at_id c l) as [[[a p] b] |].
    + destruct (_ =? 0); discriminate.
    + now intros [= <-].
Qed.

Lemma run_slots_ext (s s' : list Z) (l : list proc_data) :
  (forall x, In x s <-> In x s') -> run_slots s l = run_slots s' l.
Proof.
  intros Hss. unfold run_slots. apply flat_map_ext. intros p.
  replace (in_slots s' p) with (in_slots s p); [reflexivity |].
  destruct (in_slots s p) eqn:H1; destruct (in_slots s' p) eqn:H2;
    try reflexivity.
  - apply in_slots_true, Hss, in_slots_true in H1. congruence.
  - apply in_slots_true, Hss, in_slots_true in H2. congruence.
Qed.

Lemma execute_perm (l : list proc_data) (c c' : list Z) :
  NoDup (ids l) -> NoDup (occupied c) -> incl (occupied c) (ids l) ->
  Permutation c c' ->
  execute l c' = execute l c.
Proof.
  intros Hnd Hocc Hincl Hperm.
  assert (Hp : Permutation (occupied c) (occupied c'))
    by now apply Permutation_filter.
  rewrite (execute_spec c l Hnd Hocc Hincl).
  rewrite (execute_spec c' l Hnd).
  - f_equal. apply run_slots_ext. intros x. split; apply Permutation_in;
      [symmetry |]; exact Hp.
  - eapply Permutation_NoDup; eassumption.
  - intros x Hx. apply Hincl. eapply Permutation_in; [symmetry |]; eassumption.
Qed.

(** X13: the accounting loop does not depend on the order of the slots: with
    distinct ids, any rearrangement of the slot vector gives the same ready
    list.  In particular the sort at the end of slot fill has no effect on
    which processes run or complete. *)
Theorem accounting_ignores_slot_order (l : list proc_data) (c c' : list Z) :
  NoDup (ids l) ->
  Permutation (update_cpus_state l c) c' ->
  execute l c' = execute l (update_cpus_state l c)
  /\ execute l (fill_slots l c) = execute l (update_cpus_state l c).
Proof.
  intros Hnd Hperm.
  assert (Hocc : NoDup (occupied (update_cpus_state l c)))
    by now apply NoDup_occupied_update.
  assert (Hincl : incl (occupied (update_cpus_state l c)) (ids l))
    by apply incl_occupied_update.
  split; apply execute_perm; try assumption.
  apply update_cpus_state_perm.
Qed.

Lemma accounting_ignores_slot_order_witness :
  execute [mk_proc 7 0 2 2; mk_proc 3 0 1 1; mk_proc 9 0 4 4] [7; 3]
  = execute [mk_proc 7 0 2 2; mk_proc 3 0 1 1; mk_proc 9 0 4 4]
      (update_cpus_state [mk_proc 7 0 2 2; mk_proc 3 0 1 1; mk_proc 9 0 4 4]
         [0; 0]).
Proof.
  apply (accounting_ignores_slot_order
           [mk_proc 7 0 2 2; mk_proc 3 0 1 1; mk_proc 9 0 4 4] [0; 0] [7; 3]).
  - unfold ids. simpl. repeat constructor; simpl; intuition discriminate.
  - apply perm_swap.
Defined.

(** ** Round robin with a zero time slice *)

Lemma some_active_has_run_ext (c c' : list Z) (l : list proc_data) :
  (forall p, In p l ->
     in_slots (active_slots c) p && (0 <? executed_time p)
     = in_slots (active_slots c') p && (0 <? executed_time p)) ->
  some_active_has_run c l = some_active_has_run c' l.
Proof.
  unfold some_active_has_run. induction l as [| p l IH]; intros H;
    [reflexivity |].
  simpl. rewrite (H p) by now left.
  rewrite IH; [reflexivity |]. intros q Hq. apply H. now right.
Qed.

Lemma rr_loop_zero_slice (c : list Z) (l : list proc_data) :
  NoDup (ids l) ->
  incl (active_slots c) (ids l) ->
  rr_loop 0 l c
  = if some_active_has_run c l then Err DivisionByZero else Ok l.
Proof.
  intros Hnd. induction c as [| x c IH]; intros Hin.
  - simpl. unfold some_active_has_run.
    replace (existsb _ l) with false; [reflexivity |].
    symmetry. apply not_true_is_false. intros H.
    apply existsb_exists in H. destruct H as (p & _ & H). discriminate.
  - cbn [rr_loop]. destruct (Z.eqb_spec x (-1)) as [-> | Hx].
    + unfold some_active_has_run.
      replace (existsb _ l) with false; [reflexivity |].
      symmetry. apply not_true_is_false. intros H.
      apply existsb_exists in H. destruct H as (p & _ & H). discriminate.
    + assert (Hact : active_slots (x :: c) = x :: active_slots c).
      { cbn [active_slots]. destruct (Z.eqb_spec x (-1)); [contradiction |].
        reflexivity. }
      rewrite Hact in Hin. apply incl_cons_inv in Hin.
      destruct Hin as [Hxin Hin]. specialize (IH Hin).
      unfold rr_slot.
      destruct (split_at_id x l) as [[[a p] b] |] eqn:Hsplit.
      * apply split_at_id_Some in Hsplit. destruct Hsplit as (Hl & Hp & _).
        fold (executed_time p).
        destruct (0 <? executed_time p) eqn:Hrun.
        -- cbn [Z.eqb bind].
           replace (some_active_has_run (x :: c) l) with true; [reflexivity |].
           symmetry. apply existsb_exists. exists p. split.
           ++ rewrite Hl. apply in_or_app. right. now left.
           ++ rewrite Hact, Hrun, andb_true_r. apply in_slots_true. now left.
        -- cbn [bind]. rewrite IH.
           rewrite (some_active_has_run_ext (x :: c) c); [reflexivity |].
           intros q Hq. rewrite Hact. unfold in_slots. cbn [existsb].
           destruct (Z.eqb_spec (id q) x) as [Heq | _]; [| reflexivity].
           assert (q = p).
           { apply (NoDup_ids_inj l); try assumption.
             - rewrite Hl. apply in_or_app. right. now left.
             - congruence. }
           subst q. now rewrite Hrun, !andb_false_r.
      * apply split_at_id_None in Hsplit. contradiction.
Qed.

(** X14: with a time slice of zero, distinct ids and slots that, before the
    first idle one, all hold the id of a process of the ready list, round
    robin divides by zero exactly when some process whose id is in a slot
    before the first idle one has already run for a positive time; otherwise
    it leaves the ready list as it is. *)
Theorem rr_zero_slice (l : list proc_data) (c : list Z) :
  NoDup (ids l) ->
  incl (active_slots c) (ids l) ->
  rr l c 0
  = if some_active_has_run c l then Err DivisionByZero
    else Ok (l, update_cpus_state l c).
Proof.
  intros Hnd Hin. unfold rr. rewrite (rr_loop_zero_slice c l Hnd Hin).
  now destruct (some_active_has_run c l).
Qed.

Lemma rr_zero_slice_witness :
  rr [mk_proc 1 0 3 2; mk_proc 2 0 2 2] [1] 0
  = if some_active_has_run [1] [mk_proc 1 0 3 2; mk_proc 2 0 2 2]
    then Err DivisionByZero
    else Ok ([mk_proc 1 0 3 2; mk_proc 2 0 2 2],
             update_cpus_state [mk_proc 1 0 3 2; mk_proc 2 0 2 2] [1]).
Proof.
  apply (rr_zero_slice [mk_proc 1 0 3 2; mk_proc 2 0 2 2] [1]).
  - unfold ids. simpl. repeat constructor; simpl; intuition discriminate.
  - intros x [<- | []]. simpl. now left.
Defined.

(** ** Runs: edge cases and output format *)

Lemma execute_idle (l : list proc_data) (n : nat) :
  execute l (repeat (-1) n) = Ok l.
Proof. induction n as [| n IH]; [reflexivity | exact IH]. Qed.

Lemma active_slots_zeros (n : nat) : active_slots (repeat 0 n) = repeat 0 n.
Proof. induction n as [| n IH]; simpl; [reflexivity | now rewrite IH]. Qed.

(** X15: when the first line of the input is empty, or there is no input at
    all, a run with a valid method other than round robin, or with no CPU,
    makes exactly one iteration: it prints one record, at time 0 with every
    CPU asleep, and returns.  Round robin with at least one CPU prints
    nothing: the slots still hold the 0 they were created with, and the
    search for process 0 reads past the end of the empty ready list. *)
Theorem empty_input_run (method rr_time : Z) (cpu_count : nat)
  (input : list line) (fuel : nat) :
  valid_method method ->
  input = [] \/ (exists rest, input = Blank :: rest) ->
  main method cpu_count rr_time (S fuel) input
  = if (method =? 3) && (0 <? cpu_count)%nat then Abort OutOfRange []
    else Exit (mk_state [] (repeat (-1) cpu_count) 1 false (tl input)
                 [(0, repeat (-1) cpu_count)]).
Proof.
  intros Hm Hin.
  assert (Hread : read_input (initial cpu_count input)
                  = mk_state [] (repeat 0 cpu_count) 0 false (tl input) []).
  { destruct Hin as [-> | (rest & ->)]; reflexivity. }
  unfold main. cbn [main_loop].
  change (loop_cond (initial cpu_count input)) with true. cbv iota.
  destruct ((method =? 3) && (0 <? cpu_count)%nat) eqn:Hrr.
  - apply andb_true_iff in Hrr. destruct Hrr as [H3 Hcpu].
    apply Z.eqb_eq in H3. apply Nat.ltb_lt in Hcpu. subst method.
    unfold tick. rewrite Hread. cbn [proc_list cpus_state].
    rewrite schedule_nil_rr; [reflexivity |].
    rewrite active_slots_zeros. destruct cpu_count; [lia | discriminate].
  - assert (Hc : method <> 3 \/ active_slots (repeat 0 cpu_count) = []).
    { apply andb_false_iff in Hrr. destruct Hrr as [H3 | Hcpu].
      - left. now apply Z.eqb_neq.
      - right. apply Nat.ltb_ge in Hcpu.
        replace cpu_count with O by lia. reflexivity. }
    assert (Htick : tick method rr_time (initial cpu_count input)
                    = Ok (mk_state [] (repeat (-1) cpu_count) 1 false
                            (tl input) [(0, repeat (-1) cpu_count)])).
    { unfold tick. rewrite Hread. cbn [proc_list cpus_state].
      rewrite (schedule_nil method rr_time _ Hm Hc).
      rewrite repeat_length. cbn [bind]. rewrite execute_idle. reflexivity. }
    rewrite Htick.
    assert (Hdone : loop_cond (mk_state [] (repeat (-1) cpu_count) 1 false
                                 (tl input) [(0, repeat (-1) cpu_count)])
                    = false).
    { unfold loop_cond. cbn [read cpus_state orb].
      apply negb_false_iff, all_cpus_sleeping_occupied, occupied_idle. }
    destruct fuel; cbn [main_loop]; now rewrite Hdone.
Qed.

Lemma empty_input_run_witness :
  main 3 2 0 1 [Blank; Group 0 [(1, 0, 1)]] = Abort OutOfRange [].
Proof.
  apply (empty_input_run 3 0 2 [Blank; Group 0 [(1, 0, 1)]] 0).
  - unfold valid_method. lia.
  - right. now eexists.
Defined.

Lemma tick_cpus_length (method rr_time : Z) (st st' : state) :
  tick method rr_time st = Ok st' ->
  length (cpus_state st') = length (cpus_state st).
Proof.
  unfold tick. intros H.
  apply bind_Ok in H. destruct H as ([l c] & Hs & H).
  apply bind_Ok in H. destruct H as (l' & _ & [= <-]). simpl.
  apply schedule_inv in Hs. destruct Hs as [_ ->].
  now rewrite update_cpus_state_length, cpus_state_read_input.
Qed.

Lemma reachable_columns (method rr_time : Z) (cpu_count : nat)
  (input : list line) (st : state) :
  reachable method rr_time cpu_count input st ->
  length (cpus_state st) = cpu_count
  /\ Forall (fun r => length (snd r) = cpu_count) (stdout st).
Proof.
  induction 1 as [| st st' _ [IHc IHo] _ Htick].
  - split; [apply repeat_length | constructor].
  - pose proof (tick_cpus_length _ _ _ _ Htick) as Hlen.
    split; [congruence |].
    rewrite (tick_stdout _ _ _ _ Htick). apply Forall_app.
    split; [exact IHo |]. repeat constructor. simpl. congruence.
Qed.

(** X16: every output record has one column per CPU: however a run ends,
    normally or by a fault, each record printed holds exactly [cpu_count]
    slot values. *)
Theorem records_have_one_column_per_cpu (method rr_time : Z)
  (cpu_count : nat) (input : list line) (fuel : nat) :
  match main method cpu_count rr_time fuel input with
  | Exit st => Forall (fun r => length (snd r) = cpu_count) (stdout st)
  | Abort _ out => Forall (fun r => length (snd r) = cpu_count) out
  | OutOfFuel => True
  end.
Proof.
  unfold main.
  pose proof (main_loop_reachable method rr_time cpu_count input fuel
                (initial cpu_count input) (reach_initial _ _ _ _)) as H.
  destruct (main_loop method rr_time fuel (initial cpu_count input))
    as [st | f out |].
  - now apply (reachable_columns _ _ _ _ _ H).
  - destruct H as (st & Hst & ->). now apply (reachable_columns _ _ _ _ _ Hst).
  - exact I.
Qed.

(** ** Bookkeeping of the live processes *)

Lemma run_once_sound (input : list line) (p : proc_data) :
  sound_proc input p -> Forall (sound_proc input) (run_once p).
Proof.
  intros (Hr & He & Hin). unfold run_once.
  assert (Hw : wrap32 (remaining_time p - 1) = remaining_time p - 1).
  { unfold wrap32. apply Z.mod_small. lia. }
  rewrite Hw. destruct (Z.eqb_spec (remaining_time p - 1) 0) as [H0 | H0];
    constructor; [| constructor].
  unfold sound_proc, from_input. cbn [set_remaining remaining_time exec_time id priority].
  split; [lia |]. split; [exact He | exact Hin].
Qed.

Lemma arrivals_sound (input : list line) :
  Forall (fun p => 0 < exec_time p < 2 ^ 32) (arrivals input) ->
  Forall (sound_proc input) (arrivals input).
Proof.
  intros Hwf. pose proof (arrivals_fresh input) as Hfresh.
  rewrite Forall_forall in *. intros p Hp.
  specialize (Hwf p Hp). specialize (Hfresh p Hp).
  unfold sound_proc. split; [lia |]. split; [lia |].
  exists p. auto.
Qed.

Lemma reachable_sound (method rr_time : Z) (cpu_count : nat)
  (input : list line) (st : state) :
  NoDup (ids (arrivals input)) ->
  Forall (fun p => 0 < exec_time p < 2 ^ 32) (arrivals input) ->
  reachable method rr_time cpu_count input st ->
  Forall (sound_proc input) (known st).
Proof.
  intros Hnd Hwf Hst.
  apply (reachable_Forall method rr_time cpu_count input Hnd);
    [apply run_once_sound | now apply arrivals_sound | exact Hst].
Qed.

(** X17: in a run whose input has distinct ids and execution times in
    [1, 2^32), every process of the ready list has a remaining time that is
    positive and at most its execution time, and its id, priority and
    execution time are those of an arrival of the input. *)
Theorem live_processes_are_sound (method rr_time : Z) (cpu_count : nat)
  (input : list line) (st : state) :
  NoDup (ids (arrivals input)) ->
  Forall (fun p => 0 < exec_time p < 2 ^ 32) (arrivals input) ->
  reachable method rr_time cpu_count input st ->
  Forall (fun p => 0 < remaining_time p <= exec_time p
                   /\ from_input input p) (proc_list st).
Proof.
  intros Hnd Hwf Hst.
  pose proof (reachable_sound _ _ _ _ _ Hnd Hwf Hst) as H.
  unfold known in H. apply Forall_app in H. destruct H as [H _].
  eapply Forall_impl; [| exact H].
  intros p (Hr & _ & Hin). now split.
Qed.

Lemma live_processes_are_sound_witness :
  Forall (fun p => 0 < remaining_time p <= exec_time p
                   /\ from_input [Group 0 [(1, 0, 3); (2, 0, 2)]; Blank] p)
    (proc_list (mk_state [mk_proc 1 0 3 2; mk_proc 2 0 2 2] [1] 1 true
                  [Blank] [(0, [1])])).
Proof.
  apply (live_processes_are_sound 0 1 1 [Group 0 [(1, 0, 3); (2, 0, 2)]; Blank]).
  - unfold ids. simpl. repeat constructor; simpl; intuition discriminate.
  - simpl. repeat constructor; simpl; lia.
  - eapply reach_tick; [apply reach_initial | reflexivity | reflexivity].
Defined.

(** X18: in a run whose input has distinct ids other than -1 and execution
    times in [1, 2^32), the executed time [exec_time - remaining_time] that
    round robin computes for a process of the ready list is the number of
    output records in which the process holds a slot. *)
Theorem executed_time_counts_records (method rr_time : Z) (cpu_count : nat)
  (input : list line) (st : state) (p : proc_data) :
  NoDup (ids (arrivals input)) ->
  Forall well_formed_proc (arrivals input) ->
  reachable method rr_time cpu_count input st ->
  In p (proc_list st) ->
  executed_time p = Z.of_nat (appearances (id p) (stdout st))
  /\ executed_time p = exec_time p - remaining_time p.
Proof.
  intros Hnd Hwf Hst Hp.
  assert (Hexec : Forall (fun p => 0 < exec_time p < 2 ^ 32) (arrivals input)).
  { eapply Forall_impl; [| exact Hwf]. now intros q [_ Hq]. }
  assert (Hrange : Forall (fun p => 0 <= remaining_time p < 2 ^ 32)
                     (arrivals input)).
  { apply Forall_forall. intros q Hq. now apply (well_formed_load input). }
  pose proof (reachable_sound _ _ _ _ _ Hnd Hexec Hst) as Hsound.
  pose proof (reachable_NoDup _ _ _ _ _ Hnd Hst) as Hndk.
  assert (Hk : In p (known st)) by (apply in_or_app; now left).
  rewrite Forall_forall in Hsound.
  destruct (Hsound p Hk) as (Hr & He & a & Ha & Hida & _ & Hea).
  destruct (well_formed_load input a Hwf Ha) as (Hid & _ & Hla & _).
  assert (Hi : id p <> -1) by congruence.
  pose proof (reachable_conserves method rr_time cpu_count input Hnd st (id p)
                Hrange Hst Hi) as Hcons.
  rewrite (load_of_present p _ Hndk Hk) in Hcons.
  rewrite <- Hida, (load_of_present a _ Hnd Ha), Hla, Hida, Hea in Hcons.
  assert (Hlp : load p = remaining_time p).
  { destruct (load_cases p) as [[_ H] | [H _]]; [exact H | lia]. }
  assert (Hx : executed_time p = exec_time p - remaining_time p).
  { unfold executed_time, wrap32. apply Z.mod_small. lia. }
  split; [lia | exact Hx].
Qed.

Lemma executed_time_counts_records_witness :
  executed_time (mk_proc 1 0 3 2)
  = Z.of_nat (appearances (id (mk_proc 1 0 3 2))
                (stdout (mk_state [mk_proc 1 0 3 2; mk_proc 2 0 2 2] [1] 1 true
                           [Blank] [(0, [1])]))).
Proof.
  apply (executed_time_counts_records 0 1 1
           [Group 0 [(1, 0, 3); (2, 0, 2)]; Blank]).
  - unfold ids. simpl. repeat constructor; simpl; intuition discriminate.
  - simpl. repeat constructor; simpl; try discriminate; lia.
  - eapply reach_tick; [apply reach_initial | reflexivity | reflexivity].
  - now left.
Defined.

(** ** First come, first served *)

(** X19: FCFS serves in the order of the ready list: it leaves the list as
    it is, and, the ids being distinct, whenever a process holds a slot every
    process that stands before it in the list holds one too. *)
Theorem fcfs_serves_in_order (a b d l' : list proc_data) (p q : proc_data)
  (c c' : list Z) :
  NoDup (ids (a ++ p :: b ++ q :: d)) ->
  fcfs (a ++ p :: b ++ q :: d) c = Ok (l', c') ->
  id q <> -1 ->
  In (id q) c' ->
  l' = a ++ p :: b ++ q :: d /\ In (id p) c'.
Proof.
  intros Hnd Hs Hid Hq. unfold fcfs in Hs. injection Hs as <- <-.
  split; [reflexivity |].
  set (l := a ++ p :: b ++ q :: d) in *. set (n := length c).
  assert (Hocc : In (id q) (occupied (update_cpus_state l c)))
    by (apply occupied_In; now split).
  apply occupied_update_In in Hocc. destruct Hocc as [Hocc _].
  fold n in Hocc.
  assert (Hl : l = (a ++ p :: b) ++ q :: d)
    by (unfold l; now rewrite <- app_assoc).
  assert (Hlong : (length (a ++ p :: b) < n)%nat).
  { destruct (Nat.lt_ge_cases (length (a ++ p :: b)) n) as [H | H];
      [exact H | exfalso].
    rewrite Hl, firstn_app in Hocc.
    replace (n - length (a ++ p :: b))%nat with O in Hocc by lia.
    simpl in Hocc. rewrite app_nil_r in Hocc.
    rewrite Hl, ids_app in Hnd. simpl in Hnd.
    apply NoDup_remove_2 in Hnd. apply Hnd, in_or_app. left.
    unfold ids in *. rewrite <- firstn_map in Hocc.
    eapply In_firstn_list. exact Hocc. }
  assert (Hp : In p (firstn n l)).
  { rewrite Hl, firstn_app. apply in_or_app. left.
    rewrite firstn_all2 by lia. apply in_or_app. right. now left. }
  eapply Permutation_in; [symmetry; apply update_cpus_state_perm |].
  rewrite fill_slots_eq. apply in_or_app. left. now apply in_map.
Qed.

Lemma fcfs_serves_in_order_witness :
  [mk_proc 4 0 1 1; mk_proc 9 0 2 2; mk_proc 2 0 3 3; mk_proc 7 0 1 1]
  = [mk_proc 4 0 1 1] ++ mk_proc 9 0 2 2 :: [] ++ mk_proc 2 0 3 3
      :: [mk_proc 7 0 1 1]
  /\ In (id (mk_proc 9 0 2 2)) [2; 4; 9].
Proof.
  apply (fcfs_serves_in_order [mk_proc 4 0 1 1] [] [mk_proc 7 0 1 1]
           [mk_proc 4 0 1 1; mk_proc 9 0 2 2; mk_proc 2 0 3 3; mk_proc 7 0 1 1]
           (mk_proc 9 0 2 2) (mk_proc 2 0 3 3) [0; 0; 0] [2; 4; 9]).
  - unfold ids. simpl. repeat constructor; simpl; intuition discriminate.
  - reflexivity.
  - discriminate.
  - simpl. tauto.
Defined.

Lemma fcfs_step (rr_time : Z) (st st' : state) :
  NoDup (ids (known st)) -> nonneg_ids (known st) ->
  running_in_front st ->
  tick 0 rr_time st = Ok st' ->
  (forall p, In p (proc_list st) -> In (id p) (cpus_state st) ->
             In (id p) (cpus_state st'))
  /\ running_in_front st'.
Proof.
  intros Hnd Hpos (run & rest & Hpl & Hrun & Hrest) Htick.
  destruct (tick_inv _ _ _ _ Hnd Htick) as (l & Hs & _ & Hc & Hl' & _).
  destruct (read_input_proc_list st) as (new & Hnew).
  assert (Hl : l = proc_list (read_input st)).
  { simpl in Hs. unfold fcfs in Hs. now injection Hs. }
  pose proof (NoDup_ids_known st Hnd) as Hndl.
  assert (Hposl : nonneg_ids l).
  { rewrite Hl. rewrite <- known_read_input in Hpos.
    unfold known, nonneg_ids in Hpos. apply Forall_app in Hpos. tauto. }
  rewrite <- Hl in Hndl, Hnew. rewrite Hnew, Hpl, <- app_assoc in *.
  rewrite Forall_forall in Hrun, Hrest.
  assert (Hlen : (length run <= length (cpus_state st))%nat).
  { replace (length run) with (length (ids run)) by apply length_map.
    apply NoDup_incl_length.
    - rewrite ids_app in Hndl. now apply NoDup_app_remove_r in Hndl.
    - intros x Hx. apply in_map_iff in Hx. destruct Hx as (p & <- & Hp).
      now apply Hrun. }
  split.
  - intros p Hp Hslot.
    apply in_app_or in Hp. destruct Hp as [Hp | Hp];
      [| exfalso; now apply (Hrest p Hp)].
    assert (Hocc : In (id p) (occupied (cpus_state st'))).
    { rewrite Hc. apply occupied_update_In. split.
      - apply In_ids. rewrite firstn_app. apply in_or_app. left.
        now rewrite firstn_all2.
      - assert (0 <= id p); [| lia].
        apply (nonneg_ids_In _ _ Hposl), In_ids, in_or_app. now left. }
    apply occupied_In in Hocc. tauto.
  - unfold running_in_front. rewrite Hl', Hc.
    now apply run_slots_running_in_front.
Qed.

Lemma fcfs_invariant (rr_time : Z) (cpu_count : nat) (input : list line)
  (st : state) :
  NoDup (ids (arrivals input)) -> nonneg_ids (arrivals input) ->
  reachable 0 rr_time cpu_count input st ->
  NoDup (ids (known st)) /\ nonneg_ids (known st) /\ running_in_front st.
Proof.
  intros Hnd Hpos. induction 1 as [| st st' Hst IH _ Htick].
  - split; [exact Hnd |]. split; [exact Hpos |].
    exists [], []. repeat split; constructor.
  - destruct IH as (Hnd' & Hpos' & Hfront).
    destruct (fcfs_step _ _ _ Hnd' Hpos' Hfront Htick) as (_ & Hfront').
    split; [eapply tick_NoDup_known; eassumption |].
    split; [| exact Hfront'].
    apply (tick_Forall _ 0 rr_time st st' run_once_nonneg Hnd' Hpos' Htick).
Qed.

(** X20: FCFS does not preempt: in a run whose process ids are non-negative
    and pairwise distinct, a process that holds a slot after an iteration and
    is still in the ready list holds a slot after the next iteration, which
    takes place. *)
Theorem fcfs_keeps_slot (rr_time : Z) (cpu_count : nat) (input : list line)
  (st : state) (p : proc_data) :
  NoDup (ids (arrivals input)) ->
  nonneg_ids (arrivals input) ->
  reachable 0 rr_time cpu_count input st ->
  In p (proc_list st) ->
  In (id p) (cpus_state st) ->
  loop_cond st = true
  /\ exists st', tick 0 rr_time st = Ok st' /\ In (id p) (cpus_state st').
Proof.
  intros Hnd Hpos Hst Hp Hslot.
  destruct (fcfs_invariant _ _ _ _ Hnd Hpos Hst) as (Hnd' & Hpos' & Hfront).
  assert (Hid : 0 <= id p).
  { apply (nonneg_ids_In _ _ Hpos'), In_ids. unfold known.
    apply in_or_app. now left. }
  split.
  - unfold loop_cond. apply orb_true_iff. right. apply negb_true_iff.
    destruct (all_cpus_sleeping (cpus_state st)) eqn:Hs; [| reflexivity].
    apply all_cpus_sleeping_occupied in Hs.
    assert (Hocc : In (id p) (occupied (cpus_state st)))
      by (apply occupied_In; split; [exact Hslot | lia]).
    rewrite Hs in Hocc. destruct Hocc.
  - assert (Hvalid : valid_method 0) by (unfold valid_method; lia).
    assert (Hrr : 0 <> 3) by discriminate.
    destruct (tick_ok 0 rr_time st Hvalid Hrr Hnd') as (st' & Htick).
    exists st'. split; [exact Htick |].
    destruct (fcfs_step _ _ _ Hnd' Hpos' Hfront Htick) as (Hkeep & _).
    now apply Hkeep.
Qed.

Lemma fcfs_keeps_slot_witness :
  loop_cond (mk_state [mk_proc 1 0 3 2; mk_proc 2 0 2 2] [1] 1 true
               [Blank] [(0, [1])]) = true
  /\ exists st',
       tick 0 1 (mk_state [mk_proc 1 0 3 2; mk_proc 2 0 2 2] [1] 1 true
                   [Blank] [(0, [1])]) = Ok st'
       /\ In (id (mk_proc 1 0 3 2)) (cpus_state st').
Proof.
  apply (fcfs_keeps_slot 1 1 [Group 0 [(1, 0, 3); (2, 0, 2)]; Blank]).
  - unfold ids. simpl. repeat constructor; simpl; intuition discriminate.
  - unfold nonneg_ids. simpl. repeat constructor; simpl; lia.
  - eapply reach_tick; [apply reach_initial | reflexivity | reflexivity].
  - now left.
  - now left.
Defined.

(** ** The end of the input *)

Lemma read_input_same (post : list line) (st1 st2 : state) :
  same_up_to_blank post st1 st2 ->
  same_up_to_blank post (read_input st1) (read_input st2).
Proof.
  intros (Hpl & Hc & Ht & Hr & Ho & Hin). unfold read_input.
  rewrite <- Hr. destruct (read st1) eqn:Hread.
  - destruct (Hin eq_refl) as (pre & -> & ->).
    destruct pre as [| [| t procs] pre]; cbn [app].
    + repeat split; cbn; auto; discriminate.
    + repeat split; cbn; auto; discriminate.
    + repeat split; cbn; auto; try congruence.
      intros _. now exists pre.
  - split; [exact Hpl |]. split; [exact Hc |]. split; [exact Ht |].
    split; [congruence |]. split; [exact Ho |].
    intros H. rewrite Hread in H. discriminate.
Qed.

Lemma tick_same (method rr_time : Z) (post : list line) (st1 st2 : state) :
  same_up_to_blank post st1 st2 ->
  match tick method rr_time st1, tick method rr_time st2 with
  | Ok a, Ok b => same_up_to_blank post a b
  | Err f, Err g => f = g
  | _, _ => False
  end.
Proof.
  intros H. apply read_input_same in H.
  destruct H as (Hpl & Hc & Ht & Hr & Ho & Hin).
  unfold tick. rewrite Hpl, Hc, Ht, Ho.
  destruct (schedule method rr_time (proc_list (read_input st2))
              (cpus_state (read_input st2))) as [[l c] | f];
    cbn [bind]; [| reflexivity].
  destruct (execute l c) as [l' | f]; cbn [bind]; [| reflexivity].
  repeat split; cbn; auto.
Qed.

Lemma main_loop_same (method rr_time : Z) (post : list line) (fuel : nat)
  (st1 st2 : state) :
  same_up_to_blank post st1 st2 ->
  report_of (main_loop method rr_time fuel st1)
  = report_of (main_loop method rr_time fuel st2).
Proof.
  revert st1 st2. induction fuel as [| fuel IH]; intros st1 st2 H.
  - destruct H as (_ & Hc & _ & Hr & Ho & _). simpl.
    unfold loop_cond. rewrite Hc, Hr.
    destruct (read st2 || negb (all_cpus_sleeping (cpus_state st2)));
      simpl; [reflexivity | now rewrite Ho].
  - pose proof (tick_same method rr_time post st1 st2 H) as Htick.
    destruct H as (_ & Hc & _ & Hr & Ho & _). simpl.
    unfold loop_cond. rewrite Hc, Hr.
    destruct (read st2 || negb (all_cpus_sleeping (cpus_state st2)));
      simpl; [| now rewrite Ho].
    destruct (tick method rr_time st1) as [a | f];
      destruct (tick method rr_time st2) as [b | g]; try contradiction.
    + now apply IH.
    + simpl. now rewrite Htick, Ho.
Qed.

(** X21: an empty line ends the input: whatever follows the first empty
    line is never read, and the run prints what it would print if the input
    stopped there, and ends the same way. *)
Theorem empty_line_ends_input (method rr_time : Z) (cpu_count : nat)
  (fuel : nat) (pre post : list line) :
  report_of (main method cpu_count rr_time fuel (pre ++ Blank :: post))
  = report_of (main method cpu_count rr_time fuel pre).
Proof.
  unfold main. apply main_loop_same with (post := post).
  unfold same_up_to_blank, initial. cbn.
  repeat split. intros _. now exists pre.
Qed.

(** ** Time stamps and the run without CPUs *)

Lemma tick_time (method rr_time : Z) (st st' : state) :
  tick method rr_time st = Ok st' ->
  time st' = wrap32 (time (read_input st) + 1).
Proof.
  unfold tick. intros H.
  apply bind_Ok in H. destruct H as ([l c] & _ & H).
  apply bind_Ok in H. destruct H as (l' & _ & [= <-]). reflexivity.
Qed.

Lemma read_input_exhausted (st : state) :
  read st = false -> read_input st = st.
Proof. unfold read_input. now intros ->. Qed.

(** X22: once the input is exhausted, the records are numbered
    consecutively: the time of each record is the time of the record before
    it plus one, modulo 2^32. *)
Theorem times_are_consecutive_after_input (method rr_time : Z)
  (cpu_count : nat) (input : list line) (st st' : state) :
  reachable method rr_time cpu_count input st ->
  read st = false ->
  tick method rr_time st = Ok st' ->
  exists out t c,
    stdout st = out ++ [(t, c)]
    /\ stdout st' = out ++ [(t, c); (wrap32 (t + 1), cpus_state st')].
Proof.
  intros Hst Hread Htick.
  destruct (reachable_inv _ _ _ _ _ Hst) as [-> | (prev & _ & _ & Hprev)];
    [discriminate |].
  exists (stdout prev), (time (read_input prev)), (cpus_state st).
  pose proof (tick_stdout _ _ _ _ Hprev) as Hout.
  split; [exact Hout |].
  rewrite (tick_stdout _ _ _ _ Htick), Hout, <- app_assoc.
  rewrite (read_input_exhausted st Hread), (tick_time _ _ _ _ Hprev).
  reflexivity.
Qed.

Lemma times_are_consecutive_after_input_witness :
  exists out t c,
    stdout (mk_state [mk_proc 1 0 3 1] [1] 7 false [] [(5, [1]); (6, [1])])
    = out ++ [(t, c)]
    /\ stdout (mk_state [] [1] 8 false [] [(5, [1]); (6, [1]); (7, [1])])
       = out ++ [(t, c);
                 (wrap32 (t + 1),
                  cpus_state (mk_state [] [1] 8 false []
                                [(5, [1]); (6, [1]); (7, [1])]))].
Proof.
  apply (times_are_consecutive_after_input 0 1 1 [Group 5 [(1, 0, 3)]]).
  - eapply reach_tick;
      [eapply reach_tick; [apply reach_initial | reflexivity | reflexivity]
      | reflexivity | reflexivity].
  - reflexivity.
  - reflexivity.
Defined.

(** X23: without any CPU nothing ever runs: in a run with [cpu_count = 0]
    and distinct ids, the slot vector stays empty and the processes read so
    far, together with those still to be read, are always those of the
    input, with their remaining times untouched. *)
Theorem no_cpu_runs_nothing (method rr_time : Z) (input : list line)
  (st : state) :
  NoDup (ids (arrivals input)) ->
  reachable method rr_time 0 input st ->
  cpus_state st = []
  /\ Permutation (known st) (arrivals input)
  /\ Forall (fun r => snd r = []) (stdout st).
Proof.
  intros Hin. induction 1 as [| st st' Hst (IHc & IHk & IHo) _ Htick].
  - split; [reflexivity |]. split; [apply Permutation_refl | constructor].
  - pose proof (reachable_NoDup _ _ _ _ _ Hin Hst) as Hnd.
    destruct (tick_known _ _ _ _ Hnd Htick)
      as (l & pend & Hperm & _ & Hc & _ & Hk & Hout).
    rewrite IHc in Hc. unfold update_cpus_state in Hc. simpl in Hc.
    split; [exact Hc |]. split.
    + rewrite Hk, Hc. simpl. rewrite run_slots_absent by auto.
      now rewrite Hperm.
    + rewrite Hout. apply Forall_app. split; [exact IHo |].
      repeat constructor. exact Hc.
Qed.

Lemma no_cpu_runs_nothing_witness :
  cpus_state (mk_state [mk_proc 1 0 2 2] [] 1 true [Blank] [(0, [])]) = [].
Proof.
  apply (no_cpu_runs_nothing 0 1 [Group 0 [(1, 0, 2)]; Blank]).
  - unfold ids. simpl. repeat constructor; simpl; intuition discriminate.
  - eapply reach_tick; [apply reach_initial | reflexivity | reflexivity].
Defined.

(** ** Runs of round robin *)




Section RoundRobinRun.
Variables (rr_time : Z) (cpu_count : nat) (input : list line).
Hypothesis some_cpu : (0 < cpu_count)%nat.
Hypothesis distinct_input : NoDup (ids (arrivals input)).
Hypothesis nonneg_input : nonneg_ids (arrivals input).

Local Abbreviation rr_reach := (reachable 3 rr_time cpu_count input).


End RoundRobinRun.


